(** * The hippocampus segmentation tutorial: data module and model wrapper

    A shallow embedding of [torchio_monai_pytorch_lightning.py]: the
    [MedicalDecathlonDataModule] (indexing of the dataset directory, the
    train/validation split, the transform pipelines, the batch loaders) and
    the [Model] wrapper (training and validation step).

    Python values are modelled as follows.  A directory is the list of its
    entries, in the order the operating system reports them.  A subject is a
    finite map from role names to images, as [tio.Subject] is a [dict].  An
    attribute initialised to [None] is an [option].  An exception is the
    [Err] constructor of [result].  The process-global random generator of
    torch is threaded explicitly.  A float is the rational it stands for,
    and an operation on floats rounds its exact result to binary64.

    What the script calls in torch, torchio and MONAI ([random_split],
    [DataLoader], [SubjectsDataset], [Compose], [OneHot],
    [set_determinism]) is modelled by the documented behaviour of the
    versions the script installs (torchio 0.19.8, monai 1.3.0), as far as
    the script uses it. *)

From Stdlib Require Import ZArith QArith Qround Qabs Qpower Lqa Ascii.
From Stdlib Require Import SpecFloat.
From stdpp Require Import base list sorting strings gmap.

(** ** Exceptions *)

Inductive exn : Set :=
| TypeError
| ValueError
| KeyError
| IndexError
| RuntimeError.

Inductive result (A : Type) : Type :=
| Ok (a : A)
| Err (e : exn).
Arguments Ok {A} a.
Arguments Err {A} e.

#[global] Instance result_ret : MRet result := λ A a, Ok a.

#[global] Instance result_bind : MBind result := λ A B k m,
  match m with
  | Ok a => k a
  | Err e => Err e
  end.

#[global] Instance result_fmap : FMap result := λ A B f m,
  match m with
  | Ok a => Ok (f a)
  | Err e => Err e
  end.

(** [None] where the code needs a value: the exception [e] is raised. *)
Definition expect {A} (e : exn) (o : option A) : result A :=
  match o with
  | Some a => Ok a
  | None => Err e
  end.

(** ** File names and [Path.glob] *)

(** A glob pattern without character classes: [*] or a literal character. *)
Inductive glob_item : Set :=
| Star
| Lit (c : Ascii.ascii).

(** [fnmatch] restricted to [*] and literals: the pattern must consume the
    whole name, and [*] matches any run of characters, a leading dot
    included ([pathlib] does not hide dot files). *)
Fixpoint fnmatch (pat : list glob_item) (s : string) : bool :=
  match pat with
  | [] => match s with EmptyString => true | String _ _ => false end
  | Star :: pat' =>
      (fix star (s : string) : bool :=
         fnmatch pat' s ||
         match s with
         | EmptyString => false
         | String _ s' => star s'
         end) s
  | Lit c :: pat' =>
      match s with
      | EmptyString => false
      | String c' s' => Ascii.eqb c c' && fnmatch pat' s'
      end
  end.

(** The pattern ['*.nii*'] of [get_niis]. *)
Definition nii_pattern : list glob_item :=
  [Star; Lit "."%char; Lit "n"%char; Lit "i"%char; Lit "i"%char; Star].

(** [str.startswith]. *)
Fixpoint startswith (s pre : string) {struct pre} : bool :=
  match pre with
  | EmptyString => true
  | String c pre' =>
      match s with
      | EmptyString => false
      | String c' s' => Ascii.eqb c c' && startswith s' pre'
      end
  end.

(** A spatial shape: the three voxel counts of a volume. *)
Definition Shape : Set := (nat * nat * nat)%type.

(** A directory entry: its name and the spatial shape that loading the
    file yields. *)
Record Entry : Set := mkEntry {
  ename : string;
  eshape : Shape;
}.

(** A path [parent / name].  All paths of one listing share their parent,
    so the part-wise order of [pathlib] on them is the order of names. *)
Record Path : Set := mkPath {
  parent : string;
  entry : Entry;
}.

Definition name (p : Path) : string := ename (entry p).

Definition path_le (p q : Path) : Prop := String.le (name p) (name q).

#[global] Instance path_le_dec : RelDecision path_le.
Proof. intros p q. unfold path_le. apply _. Defined.

#[global] Instance path_le_total : Total path_le.
Proof. intros p q. unfold path_le. apply total, _. Qed.

#[global] Instance path_le_trans : Transitive path_le.
Proof. intros p q r. unfold path_le. apply transitivity. Qed.

(** [sorted], as a merge sort by name.  The names of one directory are
    distinct, so the order of the result does not depend on how ties are
    broken. *)
Definition sorted (l : list Path) : list Path := merge_sort path_le l.

(** [d.glob(pat)] over the entries of directory [d]. *)
Definition glob (d : string) (entries : list Entry) (pat : list glob_item)
  : list Path :=
  mkPath d <$> filter (λ e, fnmatch pat (ename e) = true) entries.

(** [get_niis], the local function of [download_data]. *)
Definition get_niis (d : string) (entries : list Entry) : list Path :=
  sorted (filter (λ p, startswith (name p) "." = false)
                 (glob d entries nii_pattern)).

(** The dataset directory once the archive is unpacked: the entries of its
    three subdirectories. *)
Record DatasetDir : Set := mkDatasetDir {
  imagesTr : list Entry;
  labelsTr : list Entry;
  imagesTs : list Entry;
}.

(** [download_data], after the archive is in place. *)
Definition download_data (fs : DatasetDir)
  : list Path * list Path * list Path :=
  let image_training_paths := get_niis "imagesTr" (imagesTr fs) in
  let label_training_paths := get_niis "labelsTr" (labelsTr fs) in
  let image_test_paths := get_niis "imagesTs" (imagesTs fs) in
  (image_training_paths, label_training_paths, image_test_paths).

(** ** Images and subjects *)

Inductive ImageType : Set :=
| INTENSITY
| LABEL.

Record Image : Set := mkImage {
  ipath : Path;
  itype : ImageType;
}.

Definition ScalarImage (p : Path) : Image := mkImage p INTENSITY.
Definition LabelMap (p : Path) : Image := mkImage p LABEL.

(** [tio.Subject] is a dictionary from role names to images. *)
Abbreviation Subject := (gmap string Image).

(** [tio.Subject(image=..., label=...)]. *)
Definition labelled_subject (image_path label_path : Path) : Subject :=
  <["label" := LabelMap label_path]> {["image" := ScalarImage image_path]}.

(** [tio.Subject(image=...)]. *)
Definition unlabelled_subject (image_path : Path) : Subject :=
  {["image" := ScalarImage image_path]}.

(** [zip]: stops at the end of the shorter list. *)
Fixpoint zip {A B} (l : list A) (k : list B) : list (A * B) :=
  match l, k with
  | a :: l', b :: k' => (a, b) :: zip l' k'
  | _, _ => []
  end.

(** ** Transforms *)

(** The transforms the module builds.  [Compose] holds its steps in order;
    every random transform carries its probability [p]. *)
#[warnings="-register-all"] Inductive Transform : Set :=
| RescaleIntensity (out_min out_max : Z)
| CropOrPad (target_shape : Shape)
| EnsureShapeMultiple (multiple : nat)
| OneHot (num_classes : Z)
| RandomAffine (p : Q)
| RandomGamma (p : Q)
| RandomNoise (p : Q)
| RandomMotion (p : Q)
| RandomBiasField (p : Q)
| Compose (transforms : list Transform).

(** [Compose.apply_transform]: [for transform in self.transforms:
    subject = transform(subject)].  [run] applies one elementary transform
    to the data [X] flowing through the pipeline. *)
Fixpoint apply_transform {X} (run : Transform → X → X) (t : Transform) (x : X)
  : X :=
  match t with
  | Compose ts =>
      (fix each (ts : list Transform) (x : X) : X :=
         match ts with
         | [] => x
         | t' :: ts' => each ts' (apply_transform run t' x)
         end) ts x
  | _ => run t x
  end.

(** The elementary transforms of a pipeline, in the order they run. *)
Fixpoint steps (t : Transform) : list Transform :=
  match t with
  | Compose ts =>
      (fix each (ts : list Transform) : list Transform :=
         match ts with
         | [] => []
         | t' :: ts' => steps t' ++ each ts'
         end) ts
  | _ => [t]
  end.

(** ** Datasets *)

(** [torch.utils.data.Subset]: a view of [dataset] through [indices]. *)
Record Subset : Set := mkSubset {
  sub_dataset : list Subject;
  sub_indices : list nat;
}.

(** What a [SubjectsDataset] may wrap: a Python list or a [Subset]. *)
Inductive SubjectSeq : Set :=
| ListSeq (l : list Subject)
| SubsetSeq (s : Subset).

Definition seq_len (q : SubjectSeq) : nat :=
  match q with
  | ListSeq l => length l
  | SubsetSeq s => length (sub_indices s)
  end.

(** [q[i]]; [None] stands for [IndexError]. *)
Definition seq_getitem (q : SubjectSeq) (i : nat) : option Subject :=
  match q with
  | ListSeq l => l !! i
  | SubsetSeq s => j ← sub_indices s !! i; sub_dataset s !! j
  end.

(** Iteration over a sequence.  A [Subset] has no [__iter__]: Python calls
    [__getitem__] with 0, 1, ... and stops at the first [IndexError]. *)
Fixpoint subset_iter (dataset : list Subject) (indices : list nat)
  : list Subject :=
  match indices with
  | [] => []
  | j :: indices' =>
      match dataset !! j with
      | Some x => x :: subset_iter dataset indices'
      | None => []
      end
  end.

Definition seq_items (q : SubjectSeq) : list Subject :=
  match q with
  | ListSeq l => l
  | SubsetSeq s => subset_iter (sub_dataset s) (sub_indices s)
  end.

Record SubjectsDataset : Set := mkSubjectsDataset {
  ds_subjects : SubjectSeq;
  ds_transform : option Transform;
}.

(** [tio.SubjectsDataset(subjects, transform=...)]: an empty sequence is
    refused. *)
Definition new_SubjectsDataset (subjects : SubjectSeq)
    (transform : option Transform) : result SubjectsDataset :=
  if decide (seq_len subjects = 0) then Err ValueError
  else Ok (mkSubjectsDataset subjects transform).

(** The transform part of [SubjectsDataset.__getitem__]:
    [if self._transform is not None: subject = self._transform(subject)]. *)
Definition dataset_apply {X} (run : Transform → X → X) (ds : SubjectsDataset)
    (x : X) : X :=
  match ds_transform ds with
  | Some t => apply_transform run t x
  | None => x
  end.

Definition image_shape (i : Image) : Shape := eshape (entry (ipath i)).

(** [Subject.spatial_shape]: the shape shared by the images of the subject;
    images of different shapes raise. *)
Definition spatial_shape (s : Subject) : result Shape :=
  match image_shape <$> (map_to_list s).*2 with
  | [] => Err RuntimeError
  | sh :: rest =>
      if decide (Forall (eq sh) rest) then Ok sh else Err RuntimeError
  end.

Definition axis_max (a b : Shape) : Shape :=
  (a.1.1 `max` b.1.1, a.1.2 `max` b.1.2, a.2 `max` b.2).

(** [np.array(shapes).max(axis=0)]: no maximum of an empty array. *)
Definition shapes_max (shapes : list Shape) : result Shape :=
  match shapes with
  | [] => Err ValueError
  | sh :: rest => Ok (foldl axis_max sh rest)
  end.

(** [get_max_shape]. *)
Definition get_max_shape (subjects : list Subject) : result Shape :=
  dataset ← new_SubjectsDataset (ListSeq subjects) None;
  shapes ← mapM spatial_shape (seq_items (ds_subjects dataset));
  shapes_max shapes.

(** ** The data module *)

Record DataModule : Set := mkDataModule {
  task : string;
  google_id : string;
  batch_size : Z;
  dataset_dir : string;
  train_val_ratio : Q;
  subjects : option (list Subject);
  test_subjects : option (list Subject);
  preprocess : option Transform;
  transform : option Transform;
  train_set : option SubjectsDataset;
  val_set : option SubjectsDataset;
  test_set : option SubjectsDataset;
}.

(** [__init__]. *)
Definition new_DataModule (task google_id : string) (batch_size : Z)
    (train_val_ratio : Q) : DataModule :=
  {| task := task; google_id := google_id; batch_size := batch_size;
     dataset_dir := task; train_val_ratio := train_val_ratio;
     subjects := None; test_subjects := None;
     preprocess := None; transform := None;
     train_set := None; val_set := None; test_set := None |}.

Definition set_subjects (dm : DataModule) (subjects test_subjects : list Subject)
  : DataModule :=
  {| task := task dm; google_id := google_id dm; batch_size := batch_size dm;
     dataset_dir := dataset_dir dm; train_val_ratio := train_val_ratio dm;
     subjects := Some subjects; test_subjects := Some test_subjects;
     preprocess := preprocess dm; transform := transform dm;
     train_set := train_set dm; val_set := val_set dm;
     test_set := test_set dm |}.

(** [prepare_data]: both attributes are bound to a fresh list, which the
    loops then extend by [append]. *)
Definition prepare_data (fs : DatasetDir) (dm : DataModule) : DataModule :=
  let '(image_training_paths, label_training_paths, image_test_paths) :=
    download_data fs in
  let subjects :=
    foldl (λ acc '(image_path, label_path),
             acc ++ [labelled_subject image_path label_path])
          [] (zip image_training_paths label_training_paths) in
  let test_subjects :=
    foldl (λ acc image_path, acc ++ [unlabelled_subject image_path])
          [] image_test_paths in
  set_subjects dm subjects test_subjects.

(** [get_preprocessing_transform]: the target of [CropOrPad] is computed
    here, over the training and the test subjects together. *)
Definition get_preprocessing_transform (dm : DataModule) : result Transform :=
  subjects ← expect TypeError (subjects dm);
  test_subjects ← expect TypeError (test_subjects dm);
  target ← get_max_shape (subjects ++ test_subjects);
  Ok (Compose [
    RescaleIntensity (-1) 1;
    CropOrPad target;
    EnsureShapeMultiple 8;
    OneHot (-1)
  ]).

(** [get_augmentation_transform]. *)
Definition get_augmentation_transform : Transform :=
  Compose [
    RandomAffine 1%Q;
    RandomGamma (1 # 2)%Q;
    RandomNoise (1 # 2)%Q;
    RandomMotion (1 # 10)%Q;
    RandomBiasField (1 # 4)%Q
  ].

(** ** Random numbers *)

(** The random generator of torch: its states, seeding, [randperm], which
    returns a permutation of [0 .. n-1] and the next state, and [random_]
    on an [int64] tensor with one entry, which returns an integer and the
    next state. *)
Class Generator : Type := {
  gen_state : Type;
  manual_seed : Z → gen_state;
  randperm : nat → gen_state → list nat * gen_state;
  random_ : gen_state → Z * gen_state;
  randperm_Permutation n g : (randperm n g).1 ≡ₚ seq 0 n;
}.

(** The seeds of [monai.utils.set_determinism]. *)
Definition NP_MAX : Z := 2 ^ 32 - 1.
Definition MAX_SEED : Z := NP_MAX + 1.

(** [monai.utils.set_determinism(seed=NP_MAX)].  With [seed=None] the
    generator draws a seed from the entropy of the system, [fresh]; any
    other seed is installed as it is.  The state before the call plays no
    part. *)
Definition set_determinism `{Generator} (seed : option Z) (fresh : Z)
  : gen_state :=
  match seed with
  | None => manual_seed (fresh `mod` MAX_SEED)%Z
  | Some seed => manual_seed (seed `mod` MAX_SEED)%Z
  end.

(** ** Numbers *)

(** [round] on a number: to the nearest integer, a tie to the even one. *)
Definition py_round (x : Q) : Z :=
  let f := Qfloor x in
  match (x - inject_Z f ?= 1 # 2)%Q with
  | Lt => f
  | Gt => f + 1
  | Eq => if Z.even f then f else f + 1
  end%Z.

(** The binade of a positive number: the [k] with [2^k <= x < 2^(k+1)].
    The difference of the bit lengths of numerator and denominator is [k]
    or one more. *)
Definition ilog2 (x : Q) : Z :=
  let k := (Z.log2 (Qnum x) - Z.log2 (Z.pos (Qden x)))%Z in
  if Qle_bool (2 ^ k) x then k else (k - 1)%Z.

(** The exponent of the last place of the binary64 numbers around [x]:
    52 places below the binade, and [-1074] for the subnormal numbers. *)
Definition ulp_exponent (x : Q) : Z := Z.max (ilog2 (Qabs x) - 52) (-1074).

(** Rounding to binary64, a Python [float]: to the nearest multiple of the
    last place, a tie to the even multiple.  Numbers of [2^1024] and beyond,
    which have no float, do not arise from the lengths of lists and ratios
    below one, and are rounded as if the exponent had no upper limit. *)
Definition round_binary64 (x : Q) : Q :=
  if Qeq_bool x 0 then 0%Q
  else
    let e := ulp_exponent x in
    (inject_Z (py_round (x / 2 ^ e)) * 2 ^ e)%Q.

(** A decimal literal, the conversion of an [int] that meets a float, and
    the product of two floats. *)
Definition float_literal (q : Q) : Q := round_binary64 q.
Definition float_of_int (n : Z) : Q := round_binary64 (inject_Z n).
Definition float_mul (a b : Q) : Q := round_binary64 (a * b).

(** ** Splitting *)

(** [l[start:stop]] with Python's clamping of the two bounds. *)
Definition py_slice {A} (l : list A) (start stop : Z) : list A :=
  let n := Z.of_nat (length l) in
  let clamp (i : Z) :=
    if decide (i < 0)%Z then Z.max (i + n) 0 else Z.min i n in
  let a := clamp start in
  let b := clamp stop in
  take (Z.to_nat (b - a)) (drop (Z.to_nat a) l).

(** The loop of [random_split] that hands out the [remaining] items, one
    at a time and in turn, starting with turn [i]. *)
Fixpoint round_robin (i remaining : nat) (lengths : Z * Z) : Z * Z :=
  match remaining with
  | 0 => lengths
  | S k =>
      round_robin (S i) k
        (if Nat.even i then (lengths.1 + 1, lengths.2)
         else (lengths.1, lengths.2 + 1))%Z
  end.

(** [random_split] reads lengths that sum to 1 as fractions of the
    dataset. *)
Definition fractions_to_lengths (n : Z) (lengths : Z * Z) : result (Z * Z) :=
  let '(a, b) := lengths in
  if decide (a < 0 ∨ 1 < a ∨ b < 0 ∨ 1 < b)%Z then Err ValueError
  else
    let subset_lengths := (n * a, n * b)%Z in
    let remainder := (n - (subset_lengths.1 + subset_lengths.2))%Z in
    Ok (round_robin 0 (Z.to_nat remainder) subset_lengths).

(** [torch.utils.data.random_split(dataset, lengths)] for two lengths. *)
Definition random_split `{Generator} (dataset : list Subject)
    (lengths : Z * Z) (g : gen_state) : result (Subset * Subset * gen_state) :=
  let n := Z.of_nat (length dataset) in
  lengths ← (if decide (lengths.1 + lengths.2 = 1)%Z
             then fractions_to_lengths n lengths else Ok lengths);
  if decide (lengths.1 + lengths.2 ≠ n)%Z then Err ValueError
  else
    let '(indices, g') := randperm (Z.to_nat (lengths.1 + lengths.2)) g in
    let offsets := (lengths.1, lengths.1 + lengths.2)%Z in
    Ok (mkSubset dataset (py_slice indices (offsets.1 - lengths.1) offsets.1),
        mkSubset dataset (py_slice indices (offsets.2 - lengths.2) offsets.2),
        g').

(** Line 145, [int(round(num_subjects * self.train_val_ratio))]: the
    number of subjects becomes a float, the product is a float product,
    and it is this float that is rounded. *)
Definition num_train (num_subjects : Z) (train_val_ratio : Q) : Z :=
  py_round (float_mul (float_of_int num_subjects) train_val_ratio).

(** The first four statements of [setup]: the split allocator. *)
Definition split_subjects `{Generator} (dm : DataModule) (g : gen_state)
  : result (Subset * Subset * gen_state) :=
  subjects ← expect TypeError (subjects dm);
  let num_subjects := Z.of_nat (length subjects) in
  let num_train_subjects := num_train num_subjects (train_val_ratio dm) in
  let num_val_subjects := (num_subjects - num_train_subjects)%Z in
  let splits := (num_train_subjects, num_val_subjects) in
  random_split subjects splits g.

Definition set_pipeline (dm : DataModule) (preprocess transform : Transform)
    (train_set val_set test_set : SubjectsDataset) : DataModule :=
  {| task := task dm; google_id := google_id dm; batch_size := batch_size dm;
     dataset_dir := dataset_dir dm; train_val_ratio := train_val_ratio dm;
     subjects := subjects dm; test_subjects := test_subjects dm;
     preprocess := Some preprocess; transform := Some transform;
     train_set := Some train_set; val_set := Some val_set;
     test_set := Some test_set |}.

(** [setup].  A call that raises is modelled by its exception alone: the
    attributes it had assigned by then are not reported. *)
Definition setup `{Generator} (dm : DataModule) (g : gen_state)
  : result (DataModule * gen_state) :=
  '(train_subjects, val_subjects, g') ← split_subjects dm g;
  preprocess ← get_preprocessing_transform dm;
  let augment := get_augmentation_transform in
  let transform := Compose [preprocess; augment] in
  train_set ← new_SubjectsDataset (SubsetSeq train_subjects) (Some transform);
  val_set ← new_SubjectsDataset (SubsetSeq val_subjects) (Some preprocess);
  test_subjects ← expect TypeError (test_subjects dm);
  test_set ← new_SubjectsDataset (ListSeq test_subjects) (Some preprocess);
  Ok (set_pipeline dm preprocess transform train_set val_set test_set, g').

(** ** Batch loaders *)

(** [torch.utils.data.DataLoader]: what it loads, the batch size, and the
    two options the module leaves at their defaults. *)
Record DataLoader : Set := mkDataLoader {
  dl_dataset : option SubjectsDataset;
  dl_batch_size : Z;
  dl_shuffle : bool;
  dl_drop_last : bool;
}.

(** [DataLoader(dataset, batch_size)]: [shuffle] and [drop_last] are off;
    a batch size that is not positive is refused.  The dataset is not
    looked at yet: [None] is found out when the loader is iterated. *)
Definition new_DataLoader (dataset : option SubjectsDataset) (batch_size : Z)
  : result DataLoader :=
  if decide (batch_size ≤ 0)%Z then Err ValueError
  else Ok (mkDataLoader dataset batch_size false false).

Definition train_dataloader (dm : DataModule) : result DataLoader :=
  new_DataLoader (train_set dm) (batch_size dm).

Definition val_dataloader (dm : DataModule) : result DataLoader :=
  new_DataLoader (val_set dm) (batch_size dm).

Definition test_dataloader (dm : DataModule) : result DataLoader :=
  new_DataLoader (test_set dm) (batch_size dm).

(** The three splits, and the loader of each. *)
Inductive Split : Set :=
| Train
| Val
| Test.

Definition split_set (which : Split) (dm : DataModule)
  : option SubjectsDataset :=
  match which with
  | Train => train_set dm
  | Val => val_set dm
  | Test => test_set dm
  end.

Definition dataloader (which : Split) (dm : DataModule) : result DataLoader :=
  match which with
  | Train => train_dataloader dm
  | Val => val_dataloader dm
  | Test => test_dataloader dm
  end.

(** The sampler of a loader.  [SequentialSampler]: the positions in
    order.  [RandomSampler], when [shuffle] is on: a seed is drawn from the
    global generator, and the permutation from a generator of its own that
    starts from this seed.  [len(None)] raises. *)
Definition sampler `{Generator} (dl : DataLoader) (g : gen_state)
  : result (list nat * gen_state) :=
  dataset ← expect TypeError (dl_dataset dl);
  let n := seq_len (ds_subjects dataset) in
  Ok (if dl_shuffle dl
      then let '(seed, g') := random_ g in
           ((randperm n (manual_seed seed)).1, g')
      else (seq 0 n, g)).

(** The loop of [BatchSampler]: indices are collected in [batch], which is
    yielded when it holds [batch_size] of them; what is left at the end is
    yielded too unless [drop_last] is on. *)
Fixpoint batch_sampler (batch_size : nat) (drop_last : bool)
    (batch : list nat) (indices : list nat) : list (list nat) :=
  match indices with
  | [] =>
      if bool_decide (0 < length batch) && negb drop_last then [batch] else []
  | idx :: indices' =>
      let batch' := batch ++ [idx] in
      if decide (length batch' = batch_size)
      then batch' :: batch_sampler batch_size drop_last [] indices'
      else batch_sampler batch_size drop_last batch' indices'
  end.

(** [iter(loader)] and the batch sampler run to its end: the iterator
    draws its base seed from the global generator when it is created, on
    every pass, and then asks the sampler for positions.  The result is the
    batches of positions of one pass, and the generator once they are
    drawn.  What the pass draws on top of that while it fetches subjects,
    for the random transforms of the training pipeline, is not part of
    this function. *)
Definition batches `{Generator} (dl : DataLoader) (g : gen_state)
  : result (list (list nat) * gen_state) :=
  let '(base_seed, g) := random_ g in
  '(indices, g') ← sampler dl g;
  Ok (batch_sampler (Z.to_nat (dl_batch_size dl)) (dl_drop_last dl) []
                    indices, g').

(** The subjects one batch reads, [self._subjects[index]] for each
    position of the batch, before [__getitem__] copies, loads and
    transforms them ([dataset_apply]). *)
Definition fetch (dl : DataLoader) (batch : list nat) : result (list Subject) :=
  dataset ← expect TypeError (dl_dataset dl);
  mapM (λ i, expect IndexError (seq_getitem (ds_subjects dataset) i)) batch.

(** ** The script *)

(** The default of the [seed] parameter of [set_determinism]. *)
Definition default_seed : option Z := Some NP_MAX.

(** The script from its first line to the first [data.setup()], with the
    seed given to [set_determinism] at line 51.  [g0] is the state of the
    global generator when the process starts, which differs from run to
    run, and [fresh] the entropy a generator asking for a seed would get.
    The call at line 51 replaces the state of the generator. *)
Definition run_script_with `{Generator} (seed : option Z) (fresh : Z)
    (g0 : gen_state) (fs : DatasetDir) : result (DataModule * gen_state) :=
  let default_generator := g0 in
  let default_generator := set_determinism seed fresh in
  let data :=
    new_DataModule "Task04_Hippocampus" "1RzPB1_bqzQhlWvU-YGvZzhx2omcDh38C"
                   16 (float_literal (8 # 10)) in
  let data := prepare_data fs data in
  setup data default_generator.

(** The script as written: [monai.utils.set_determinism()]. *)
Definition run_script `{Generator} (fresh : Z) (g0 : gen_state)
    (fs : DatasetDir) : result (DataModule * gen_state) :=
  run_script_with default_seed fresh g0 fs.

(** The partition a run ends with: the positions of the subject list
    that went to training and to validation. *)
Definition partition_of `{Generator} (r : result (DataModule * gen_state))
  : option (SubjectSeq * SubjectSeq) :=
  match r with
  | Ok (dm, _) =>
      train ← train_set dm; val ← val_set dm;
      Some (ds_subjects train, ds_subjects val)
  | Err _ => None
  end.

(** ** One-hot encoding *)

(** The largest value of a list of labels, from [start] on. *)
Definition max_label (start : Z) (data : list Z) : Z := foldl Z.max start data.

(** The indicator vector of label [v] among [num_classes] classes. *)
Definition indicator (num_classes : nat) (v : Z) : list Z :=
  (λ c, if decide (v = Z.of_nat c) then 1 else 0)%Z <$> seq 0 num_classes.

(** [torch.nn.functional.one_hot(data, num_classes)] on the voxels of a
    label map: the number of classes, and one indicator vector per voxel.
    With [num_classes = -1] the number of classes is one more than the
    largest label. *)
Definition one_hot (data : list Z) (num_classes : Z)
  : result (nat * list (list Z)) :=
  match data with
  | [] =>
      if decide (num_classes ≤ 0)%Z then Err RuntimeError
      else Ok (Z.to_nat num_classes, [])
  | v :: data' =>
      if decide (Exists (λ v, v < 0)%Z data) then Err RuntimeError
      else
        let inferred := (max_label v data' + 1)%Z in
        if decide (num_classes = -1)%Z
        then Ok (Z.to_nat inferred, indicator (Z.to_nat inferred) <$> data)
        else if decide (num_classes < inferred)%Z then Err RuntimeError
        else Ok (Z.to_nat num_classes,
                 indicator (Z.to_nat num_classes) <$> data)
  end.

(** [permute(3, 0, 1, 2)]: the class axis comes first, so that the result
    is one mask over the voxels per class. *)
Definition permute_classes_first (t : nat * list (list Z)) : list (list Z) :=
  (λ c, (λ row, nth c row 0%Z) <$> t.2) <$> seq 0 t.1.

(** [OneHot.apply_transform] on the voxels of one label map. *)
Definition OneHot_apply (num_classes : Z) (data : list Z)
  : result (list (list Z)) :=
  one_hot_data ← one_hot data num_classes;
  Ok (permute_classes_first one_hot_data).

(** The number of distinct labels of a label map. *)
Definition distinct_labels (data : list Z) : nat :=
  size (list_to_set data : gset Z).

(** ** The model wrapper *)

Section model.
(** Tensors, and [len] of a tensor: the size of its first axis. *)
Context {Tensor : Type} (tensor_len : Tensor → nat).

Record Model : Type := mkModel {
  lr : Q;
  net : Tensor → Tensor;
  criterion : Tensor → Tensor → Tensor;
  optimizer_class : string;
}.

(** A batch: role name, then field name, as the collated subjects are. *)
Definition Batch : Type := gmap string (gmap string Tensor).

(** [tio.DATA]. *)
Definition DATA : string := "data".

(** One call of [self.log]. *)
Record LogEntry : Type := mkLogEntry {
  log_name : string;
  log_value : Tensor;
  log_prog_bar : bool;
  log_batch_size : nat;
}.

Definition prepare_batch (batch : Batch) : result (Tensor * Tensor) :=
  image ← expect KeyError (batch !! "image");
  x ← expect KeyError (image !! DATA);
  label ← expect KeyError (batch !! "label");
  y ← expect KeyError (label !! DATA);
  Ok (x, y).

Definition infer_batch (m : Model) (batch : Batch)
  : result (Tensor * Tensor) :=
  '(x, y) ← prepare_batch batch;
  let y_hat := net m x in
  Ok (y_hat, y).

Definition training_step (m : Model) (batch : Batch) (batch_idx : nat)
    (logs : list LogEntry) : result (Tensor * list LogEntry) :=
  '(y_hat, y) ← infer_batch m batch;
  let loss := criterion m y_hat y in
  Ok (loss, logs ++ [mkLogEntry "train_loss" loss true (tensor_len y)]).

Definition validation_step (m : Model) (batch : Batch) (batch_idx : nat)
    (logs : list LogEntry) : result (Tensor * list LogEntry) :=
  '(y_hat, y) ← infer_batch m batch;
  let loss := criterion m y_hat y in
  Ok (loss, logs ++ [mkLogEntry "val_loss" loss false (tensor_len y)]).
End model.

(** ** Shapes through the pipeline *)

(** [EnsureShapeMultiple] with its default method, padding, on one axis.
    The transform first stores the shape in an array of [uint16], which
    keeps an axis modulo [2^16]; the result is the next multiple of [m]
    from there, and at least 1. *)
Definition ensure_multiple (m d : nat) : nat :=
  let source := d `mod` 2 ^ 16 in
  ((source + m - 1) / m * m) `max` 1.

(** What one elementary transform does to the spatial shape of a subject:
    pad-or-crop sets it, padding to a multiple rounds it up, and the other
    transforms leave it alone. *)
Definition shape_step (t : Transform) (sh : Shape) : Shape :=
  match t with
  | CropOrPad target => target
  | EnsureShapeMultiple m =>
      (ensure_multiple m sh.1.1, ensure_multiple m sh.1.2,
       ensure_multiple m sh.2)
  | _ => sh
  end.

(** ** The evaluation loop *)

(** [argmax] along the class axis, at one voxel: the position of the
    largest value, the first such position when several values are
    largest.  [best_i] and [best] are the position and the value retained
    so far, [i] the position of the head of [row]. *)
Fixpoint argmax_from (best_i : nat) (best : Q) (i : nat) (row : list Q) : nat :=
  match row with
  | [] => best_i
  | v :: row' =>
      if Qlt_le_dec best v then argmax_from i v (S i) row'
      else argmax_from best_i best (S i) row'
  end.

Definition argmax (row : list Q) : nat :=
  match row with
  | [] => 0
  | v :: row' => argmax_from 0 v 1 row'
  end.

(** Lines 287 and 288: [labels = logits.argmax(dim=1)] and
    [one_hot(labels).permute(0, 4, 1, 2, 3)], on the voxels of a batch,
    each with the values the network gives to the classes. *)
Definition labels_one_hot (logits : list (list Q)) : result (list (list Z)) :=
  let labels := (λ row, Z.of_nat (argmax row)) <$> logits in
  one_hot_data ← one_hot labels (-1);
  Ok (permute_classes_first one_hot_data).

(** * The vocabulary of the properties *)

(** The notions the statements below are written with, and a small
    generator and dataset on which the model runs. *)

(** ** File names *)

(** [.nii] occurs in the name. *)
Definition contains_nii (s : string) : Prop :=
  ∃ pre post, s = pre +:+ ".nii" +:+ post.

(** A hidden file: its name starts with a dot. *)
Definition hidden (s : string) : Prop := ∃ rest, s = String "."%char rest.

(** The names [get_niis] keeps, as one test. *)
Definition kept (s : string) : bool :=
  fnmatch nii_pattern s && negb (startswith s ".").

(** ** Subjects and listings *)

(** A training subject from a pair of paths, as the first loop of
    [prepare_data] builds it. *)
Definition pair_subject (pq : Path * Path) : Subject :=
  labelled_subject pq.1 pq.2.

(** The listing of subdirectory [d]: sorted by name, and made of the
    entries whose name contains [.nii] and does not start with a dot, none
    lost and none repeated. *)
Definition is_listing (d : string) (entries : list Entry) (paths : list Path)
  : Prop :=
  StronglySorted path_le paths ∧
  paths ≡ₚ mkPath d <$> filter (λ e, kept (ename e) = true) entries ∧
  ∀ p, p ∈ paths ↔
       ∃ e, e ∈ entries ∧ p = mkPath d e ∧
            contains_nii (ename e) ∧ ¬ hidden (ename e).

(** ** Pipelines and target shapes *)

(** The four preprocessing steps for a given target shape, and the five
    augmentation steps. *)
Definition preprocessing_steps (target : Shape) : list Transform :=
  [RescaleIntensity (-1) 1; CropOrPad target; EnsureShapeMultiple 8;
   OneHot (-1)].

Definition augmentation_steps : list Transform :=
  [RandomAffine 1%Q; RandomGamma (1 # 2)%Q; RandomNoise (1 # 2)%Q;
   RandomMotion (1 # 10)%Q; RandomBiasField (1 # 4)%Q].

(** The steps a dataset applies to each subject it hands out. *)
Definition dataset_steps (ds : SubjectsDataset) : list Transform :=
  match ds_transform ds with
  | Some t => steps t
  | None => []
  end.

(** [target] is the per-axis maximum of [shapes]: no shape exceeds it on
    any axis, and on each axis some shape attains it. *)
Definition is_axis_max (target : Shape) (shapes : list Shape) : Prop :=
  (∀ sh, sh ∈ shapes →
         sh.1.1 ≤ target.1.1 ∧ sh.1.2 ≤ target.1.2 ∧ sh.2 ≤ target.2) ∧
  (∃ sh, sh ∈ shapes ∧ sh.1.1 = target.1.1) ∧
  (∃ sh, sh ∈ shapes ∧ sh.1.2 = target.1.2) ∧
  (∃ sh, sh ∈ shapes ∧ sh.2 = target.2).

(** The targets of the pad-or-crop steps among the steps of a dataset. *)
Definition crop_targets (ds : SubjectsDataset) : list Shape :=
  omap (λ t, match t with CropOrPad target => Some target | _ => None end)
       (dataset_steps ds).

(** All three datasets of the module pad or crop to [target], and to
    nothing else. *)
Definition pads_or_crops_to (dm : DataModule) (target : Shape) : Prop :=
  ∃ train val test,
    train_set dm = Some train ∧ val_set dm = Some val ∧
    test_set dm = Some test ∧
    crop_targets train = [target] ∧
    crop_targets val = [target] ∧
    crop_targets test = [target].

(** The data module with one more test subject. *)
Definition add_test_subject (dm : DataModule) (t : Subject) : DataModule :=
  {| task := task dm; google_id := google_id dm; batch_size := batch_size dm;
     dataset_dir := dataset_dir dm; train_val_ratio := train_val_ratio dm;
     subjects := subjects dm;
     test_subjects := (λ tsubs, tsubs ++ [t]) <$> test_subjects dm;
     preprocess := preprocess dm; transform := transform dm;
     train_set := train_set dm; val_set := val_set dm;
     test_set := test_set dm |}.

(** ** Sequences *)

(** A sequence is well formed when indexing agrees with iteration. *)
Definition seq_in_range (q : SubjectSeq) : Prop :=
  match q with
  | ListSeq _ => True
  | SubsetSeq s => Forall (λ j, j < length (sub_dataset s)) (sub_indices s)
  end.

(** ** Channels *)

Definition sumZ (l : list Z) : Z := foldr Z.add 0%Z l.

(** The sum over the channels of the values at voxel [i]. *)
Definition voxel_sum (channels : list (list Z)) (i : nat) : Z :=
  sumZ ((λ ch, nth i ch 0%Z) <$> channels).

(** A mask holds nothing but 0 and 1. *)
Definition is_mask (ch : list Z) : Prop := Forall (λ v, v = 0 ∨ v = 1)%Z ch.

(** The channels of a label map with [C] classes: channel [c] is the mask
    of the voxels labelled [c]. *)
Definition class_masks (C : nat) (data : list Z) : list (list Z) :=
  (λ c, (λ v, if decide (v = Z.of_nat c) then 1 else 0)%Z <$> data)
    <$> seq 0 C.

(** ** Nearest numbers *)

(** [n] is an integer nearest to [x], and the even one if another integer
    is as near. *)
Definition nearest_integer (x : Q) (n : Z) : Prop :=
  ∀ z : Z,
    (Qabs (inject_Z n - x) <= Qabs (inject_Z z - x))%Q ∧
    ((Qabs (inject_Z n - x) == Qabs (inject_Z z - x))%Q → z ≠ n →
     Z.even n = true).

(** The finite binary64 numbers: a significand of at most 53 bits, scaled
    by a power of two within the exponent range of the format. *)
Definition is_binary64 (q : Q) : Prop :=
  ∃ m e : Z, (Z.abs m < 2 ^ 53)%Z ∧ (-1074 ≤ e ≤ 971)%Z ∧
    (q == inject_Z m * 2 ^ e)%Q.

(** The significand of [q] is even, [q] being written in normal form: with
    a significand of 53 bits, or with the least exponent. *)
Definition even_significand (q : Q) : Prop :=
  ∃ m e : Z, (Z.abs (2 * m) < 2 ^ 53)%Z ∧ (-1074 ≤ e ≤ 971)%Z ∧
    (2 ^ 52 ≤ Z.abs (2 * m) ∨ e = -1074)%Z ∧
    (q == inject_Z (2 * m) * 2 ^ e)%Q.

(** [p] is a binary64 number nearest to [x], and the one with the even
    significand if another binary64 number is as near: [x] rounded to
    nearest, ties to even. *)
Definition nearest_binary64 (x p : Q) : Prop :=
  is_binary64 p ∧
  ∀ q, is_binary64 q →
    (Qabs (p - x) <= Qabs (q - x))%Q ∧
    ((Qabs (p - x) == Qabs (q - x))%Q → ¬ (q == p)%Q → even_significand p).

(** The number a finite float of the standard library stands for. *)
Definition SF_value (f : spec_float) : Q :=
  match f with
  | S754_finite s m e =>
      ((if s then -1 else 1) * inject_Z (Z.pos m) * 2 ^ e)%Q
  | _ => 0%Q
  end.

(** ** Partitions *)

(** The train indices of a partition. *)
Definition train_indices (p : option (SubjectSeq * SubjectSeq)) : list nat :=
  match p with
  | Some (SubsetSeq s, _) => sub_indices s
  | _ => []
  end.

(** ** A generator and a dataset to run the model on *)

(** A generator whose state is a counter: [randperm n] rotates
    [0 .. n-1] by the counter and advances it, and [random_] returns the
    counter and advances it. *)
Definition rotating_randperm (n : nat) (k : Z) : list nat * Z :=
  (rotate (Z.to_nat (k `mod` Z.max 1 (Z.of_nat n))) (seq 0 n), (k + 1)%Z).

Lemma rotating_randperm_Permutation n k :
  (rotating_randperm n k).1 ≡ₚ seq 0 n.
Proof.
  unfold rotating_randperm, rotate. cbn [fst].
  by rewrite Permutation_app_comm, take_drop.
Qed.

Definition rotating_generator : Generator :=
  {| gen_state := Z;
     manual_seed := λ seed, seed;
     randperm := rotating_randperm;
     random_ := λ k, (k, (k + 1)%Z);
     randperm_Permutation := rotating_randperm_Permutation |}.

(** A dataset directory with three image/label pairs and two test images,
    listed out of order and with a hidden file and a stray text file. *)
Definition example_dir : DatasetDir :=
  {| imagesTr := [mkEntry "hippocampus_003.nii.gz" (35, 51, 35);
                  mkEntry "._hippocampus_001.nii.gz" (1, 1, 1);
                  mkEntry "hippocampus_001.nii.gz" (36, 50, 31);
                  mkEntry "hippocampus_002.nii.gz" (34, 52, 40)];
     labelsTr := [mkEntry "hippocampus_002.nii.gz" (34, 52, 40);
                  mkEntry "hippocampus_001.nii.gz" (36, 50, 31);
                  mkEntry "notes.txt" (0, 0, 0);
                  mkEntry "hippocampus_003.nii.gz" (35, 51, 35)];
     imagesTs := [mkEntry "hippocampus_005.nii.gz" (33, 48, 43);
                  mkEntry "hippocampus_004.nii.gz" (38, 47, 36)] |}.

(** The same directory with the label of the third subject missing. *)
Definition example_dir_missing_label : DatasetDir :=
  {| imagesTr := imagesTr example_dir;
     labelsTr := [mkEntry "hippocampus_002.nii.gz" (34, 52, 40);
                  mkEntry "hippocampus_001.nii.gz" (36, 50, 31)];
     imagesTs := imagesTs example_dir |}.

(** The data module of the script, after [prepare_data]. *)
Definition example_module : DataModule :=
  prepare_data example_dir
    (new_DataModule "Task04_Hippocampus" "1RzPB1_bqzQhlWvU-YGvZzhx2omcDh38C"
                    16 (float_literal (8 # 10))).

Definition example_subjects : list Subject :=
  default [] (subjects example_module).

Definition example_test_subjects : list Subject :=
  default [] (test_subjects example_module).

(** The data module and the generator after [setup], from state 1. *)
Definition example_setup : DataModule * Z :=
  match setup (H := rotating_generator) example_module 1%Z with
  | Ok r => r
  | Err _ => (example_module, 1%Z)
  end.

(** ** Further notions and examples *)



(** The batch holds a tensor under [image] and one under [label]. *)
Definition has_image_and_label {Tensor} (batch : @Batch Tensor) : Prop :=
  ∃ image label x y,
    batch !! "image" = Some image ∧ image !! DATA = Some x ∧
    batch !! "label" = Some label ∧ label !! DATA = Some y.

(** The example directory with the first two image entries listed the
    other way round. *)
Definition example_dir_reordered : DatasetDir :=
  {| imagesTr := [mkEntry "._hippocampus_001.nii.gz" (1, 1, 1);
                  mkEntry "hippocampus_003.nii.gz" (35, 51, 35);
                  mkEntry "hippocampus_001.nii.gz" (36, 50, 31);
                  mkEntry "hippocampus_002.nii.gz" (34, 52, 40)];
     labelsTr := labelsTr example_dir;
     imagesTs := imagesTs example_dir |}.

(** The example directory with a label of another shape for the second
    subject. *)
Definition example_dir_wrong_shape : DatasetDir :=
  {| imagesTr := imagesTr example_dir;
     labelsTr := [mkEntry "hippocampus_002.nii.gz" (34, 52, 41);
                  mkEntry "hippocampus_001.nii.gz" (36, 50, 31);
                  mkEntry "hippocampus_003.nii.gz" (35, 51, 35)];
     imagesTs := imagesTs example_dir |}.


(** * Properties *)

(** ** Matching file names *)

Lemma fnmatch_lit c pat s :
  fnmatch (Lit c :: pat) s = true ↔ ∃ s', s = String c s' ∧ fnmatch pat s' = true.
Proof.
  destruct s as [|c' s']; simpl.
  - split; [done | by intros (? & ? & ?)].
  - rewrite andb_true_iff, Ascii.eqb_eq. split.
    + intros [-> ?]. eauto.
    + intros (? & [= -> ->] & ?). done.
Qed.

Lemma string_app_nil_l (s : string) : "" +:+ s = s.
Proof. reflexivity. Qed.

Lemma string_app_cons c (s t : string) :
  String c s +:+ t = String c (s +:+ t).
Proof. reflexivity. Qed.

Lemma fnmatch_star pat s :
  fnmatch (Star :: pat) s = true ↔
  ∃ pre post, s = pre +:+ post ∧ fnmatch pat post = true.
Proof.
  simpl. induction s as [|c s IH].
  - rewrite orb_false_r. split.
    + intros ?. by exists "", "".
    + intros (pre & post & Heq & ?). destruct pre; [|done].
      rewrite string_app_nil_l in Heq. by subst.
  - rewrite orb_true_iff, IH. split.
    + intros [?|(pre & post & -> & ?)].
      * by exists "", (String c s).
      * by exists (String c pre), post.
    + intros (pre & post & Heq & ?). destruct pre as [|c' pre].
      * left. rewrite string_app_nil_l in Heq. by subst.
      * right. rewrite string_app_cons in Heq. injection Heq as -> ->. eauto.
Qed.

Lemma fnmatch_nii_pattern s : fnmatch nii_pattern s = true ↔ contains_nii s.
Proof.
  unfold nii_pattern, contains_nii. rewrite fnmatch_star.
  split.
  - intros (pre & post & -> & H).
    apply fnmatch_lit in H as (s1 & -> & H).
    apply fnmatch_lit in H as (s2 & -> & H).
    apply fnmatch_lit in H as (s3 & -> & H).
    apply fnmatch_lit in H as (s4 & -> & H).
    exists pre, s4. reflexivity.
  - intros (pre & post & ->). exists pre, (".nii" +:+ post). split; [done|].
    do 4 (apply fnmatch_lit; eexists; split; [reflexivity|]).
    apply fnmatch_star. exists post, "". split; [|done].
    clear. induction post as [|c post IH]; [done|].
    rewrite string_app_cons. by f_equal.
Qed.

Lemma startswith_dot s : startswith s "." = true ↔ hidden s.
Proof.
  unfold hidden. destruct s as [|c s].
  - simpl. split; [done | by intros [? ?]].
  - cbn [startswith]. rewrite andb_true_r, Ascii.eqb_eq. split.
    + intros <-. eauto.
    + by intros [? [= <- _]].
Qed.

(** ** The subject indexer *)

Lemma kept_spec s : kept s = true ↔ contains_nii s ∧ ¬ hidden s.
Proof.
  unfold kept.
  rewrite andb_true_iff, negb_true_iff, fnmatch_nii_pattern,
    <-startswith_dot, not_true_iff_false.
  done.
Qed.

Lemma get_niis_Permutation d entries :
  get_niis d entries ≡ₚ
  mkPath d <$> filter (λ e, kept (ename e) = true) entries.
Proof.
  unfold get_niis, sorted, glob. rewrite merge_sort_Permutation.
  induction entries as [|e entries IH]; [done|].
  rewrite (filter_cons (λ e, kept (ename e) = true)).
  rewrite (filter_cons (λ e, fnmatch nii_pattern (ename e) = true)).
  destruct (decide (kept (ename e) = true)) as [Hk|Hk];
    destruct (decide (fnmatch nii_pattern (ename e) = true)) as [Hm|Hm];
    unfold kept in Hk; try rewrite Hm in Hk;
    try (apply not_true_is_false in Hm; rewrite Hm in Hk); try done.
  - rewrite !fmap_cons, filter_cons, decide_True, IH; [done|].
    unfold name. cbn [entry]. by destruct (startswith (ename e) ".").
  - rewrite fmap_cons, filter_cons, decide_False, IH; [done|].
    unfold name. cbn [entry]. by destruct (startswith (ename e) ".").
Qed.

Lemma get_niis_StronglySorted d entries :
  StronglySorted path_le (get_niis d entries).
Proof. apply (StronglySorted_merge_sort _). Qed.

Lemma elem_of_get_niis d entries p :
  p ∈ get_niis d entries ↔
  ∃ e, e ∈ entries ∧ p = mkPath d e ∧
       contains_nii (ename e) ∧ ¬ hidden (ename e).
Proof.
  rewrite get_niis_Permutation, list_elem_of_fmap.
  setoid_rewrite list_elem_of_filter. setoid_rewrite kept_spec.
  split.
  - intros (e & -> & ? & ?). eauto.
  - intros (e & ? & -> & ?). eauto.
Qed.

Lemma foldl_snoc_fmap {A B} (f : A → B) (acc : list B) (l : list A) :
  foldl (λ acc x, acc ++ [f x]) acc l = acc ++ (f <$> l).
Proof.
  revert acc. induction l as [|x l IH]; intros acc; simpl.
  - by rewrite app_nil_r.
  - by rewrite IH, <-app_assoc.
Qed.

Lemma length_zip {A B} (l : list A) (k : list B) :
  length (zip l k) = length l `min` length k.
Proof.
  revert k. induction l as [|a l IH]; intros [|b k]; simpl; auto.
Qed.

Lemma zip_lookup {A B} (l : list A) (k : list B) i a b :
  zip l k !! i = Some (a, b) ↔ l !! i = Some a ∧ k !! i = Some b.
Proof.
  revert k i. induction l as [|a' l IH]; intros [|b' k] [|i]; simpl;
    try (split; [done | by intros [? ?]]).
  - split; [by intros [= -> ->] | by intros [[= ->] [= ->]]].
  - apply IH.
Qed.

Lemma zip_take {A B} (l : list A) (k : list B) :
  zip l k = zip (take (length l `min` length k) l)
                (take (length l `min` length k) k).
Proof.
  revert k. induction l as [|a l IH]; intros [|b k]; simpl; auto.
  by rewrite <-IH.
Qed.

Lemma foldl_append_pairs acc (l : list (Path * Path)) :
  foldl (λ acc '(image_path, label_path),
           acc ++ [labelled_subject image_path label_path]) acc l
  = acc ++ (pair_subject <$> l).
Proof.
  revert acc. induction l as [|[ip lp] l IH]; intros acc; simpl.
  - by rewrite app_nil_r.
  - by rewrite IH, <-app_assoc.
Qed.

Lemma prepare_data_subjects fs dm :
  subjects (prepare_data fs dm) =
    Some (pair_subject <$> zip (get_niis "imagesTr" (imagesTr fs))
                               (get_niis "labelsTr" (labelsTr fs))).
Proof.
  unfold prepare_data, download_data. cbn [set_subjects subjects].
  by rewrite foldl_append_pairs.
Qed.

Lemma prepare_data_test_subjects fs dm :
  test_subjects (prepare_data fs dm) =
    Some (unlabelled_subject <$> get_niis "imagesTs" (imagesTs fs)).
Proof.
  unfold prepare_data, download_data. cbn [set_subjects test_subjects].
  by rewrite foldl_snoc_fmap.
Qed.

Lemma get_niis_is_listing d entries : is_listing d entries (get_niis d entries).
Proof.
  split; [apply get_niis_StronglySorted|].
  split; [apply get_niis_Permutation|].
  intros p. apply elem_of_get_niis.
Qed.

Lemma labelled_subject_lookup ip lp :
  labelled_subject ip lp !! "image" = Some (ScalarImage ip) ∧
  labelled_subject ip lp !! "label" = Some (LabelMap lp) ∧
  dom (labelled_subject ip lp) = ({["image"; "label"]} : gset string).
Proof.
  unfold labelled_subject. split; [|split].
  - by rewrite lookup_insert_ne, lookup_singleton_eq.
  - by rewrite lookup_insert_eq.
  - rewrite dom_insert_L, dom_singleton_L. set_solver.
Qed.

(** C6.  For every dataset directory, [download_data] lists each of
    [imagesTr], [labelsTr] and [imagesTs] sorted by name, keeping the
    entries that match ['*.nii*'] and are not hidden; [prepare_data] pairs
    the i-th image path with the i-th label path into a subject with the
    roles [image] and [label], and turns each [imagesTs] path into a
    subject with the role [image] only. *)
Theorem subject_indexer_lists_and_pairs fs dm :
  ∃ images labels tests subs tsubs,
    download_data fs = (images, labels, tests) ∧
    is_listing "imagesTr" (imagesTr fs) images ∧
    is_listing "labelsTr" (labelsTr fs) labels ∧
    is_listing "imagesTs" (imagesTs fs) tests ∧
    subjects (prepare_data fs dm) = Some subs ∧
    test_subjects (prepare_data fs dm) = Some tsubs ∧
    (∀ i s, subs !! i = Some s ↔
       ∃ ip lp, images !! i = Some ip ∧ labels !! i = Some lp ∧
                s = labelled_subject ip lp) ∧
    (∀ s, s ∈ subs →
       ∃ ip lp, s !! "image" = Some (ScalarImage ip) ∧
                s !! "label" = Some (LabelMap lp) ∧
                dom s = ({["image"; "label"]} : gset string)) ∧
    (∀ i s, tsubs !! i = Some s ↔
       ∃ ip, tests !! i = Some ip ∧ s = unlabelled_subject ip) ∧
    (∀ s, s ∈ tsubs →
       ∃ ip, s !! "image" = Some (ScalarImage ip) ∧
             dom s = ({["image"]} : gset string)).
Proof.
  eexists _, _, _, _, _. split; [reflexivity|].
  do 3 (split; [apply get_niis_is_listing|]).
  split; [apply prepare_data_subjects|].
  split; [apply prepare_data_test_subjects|].
  split; [|split; [|split]].
  - intros i s. rewrite list_lookup_fmap. split.
    + destruct (zip _ _ !! i) as [[ip lp]|] eqn:Hz; [|done].
      intros [= <-]. apply zip_lookup in Hz as [? ?]. by exists ip, lp.
    + intros (ip & lp & Hi & Hl & ->).
      by rewrite (proj2 (zip_lookup _ _ i ip lp) (conj Hi Hl)).
  - intros s (pq & -> & _)%list_elem_of_fmap. exists pq.1, pq.2.
    apply labelled_subject_lookup.
  - intros i s. rewrite list_lookup_fmap. split.
    + destruct (get_niis _ _ !! i) as [ip|]; [|done].
      intros [= <-]. by exists ip.
    + intros (ip & -> & ->). done.
  - intros s (ip & -> & _)%list_elem_of_fmap. exists ip.
    unfold unlabelled_subject.
    by rewrite lookup_singleton_eq, dom_singleton_L.
Qed.

(** C2.  When the two path lists differ in length, [prepare_data] raises
    nothing: it pairs the first [min] paths of each list, so the list of
    training subjects is as long as the shorter list. *)
Theorem prepare_data_truncates_to_shorter fs dm images labels tests :
  download_data fs = (images, labels, tests) →
  length images ≠ length labels →
  let n := length images `min` length labels in
  ∃ subs, subjects (prepare_data fs dm) = Some subs ∧
          length subs = n ∧
          subs = pair_subject <$> zip (take n images) (take n labels).
Proof.
  intros [= <- <- <-] _ n. eexists. split; [apply prepare_data_subjects|].
  split.
  - by rewrite length_fmap, length_zip.
  - f_equal. apply zip_take.
Qed.

(** C10.  [prepare_data] binds both subject lists anew: calling it again
    over the same directory contents, any number of times, leaves the data
    module as one call does, and the lists it stores do not depend on what
    was stored before. *)
Theorem prepare_data_idempotent fs dm k :
  Nat.iter (S k) (prepare_data fs) dm = prepare_data fs dm ∧
  ∀ dm', subjects (prepare_data fs dm') = subjects (prepare_data fs dm) ∧
         test_subjects (prepare_data fs dm') = test_subjects (prepare_data fs dm).
Proof.
  split.
  - induction k as [|k IH]; [done|].
    change (Nat.iter (S (S k)) (prepare_data fs) dm)
      with (prepare_data fs (Nat.iter (S k) (prepare_data fs) dm)).
    by rewrite IH.
  - intros dm'. by rewrite !prepare_data_subjects, !prepare_data_test_subjects.
Qed.

(** ** Rounding to the nearest integer *)

Lemma py_round_comp x y : (x == y)%Q → py_round x = py_round y.
Proof.
  intros Hxy. unfold py_round. rewrite (Qfloor_comp _ _ Hxy).
  assert ((x - inject_Z (Qfloor y) ?= 1 # 2)
          = (y - inject_Z (Qfloor y) ?= 1 # 2))%Q as ->; [|done].
  apply Qcompare_comp; [|done]. by rewrite Hxy.
Qed.

Lemma py_round_nearest (x : Q) :
  (inject_Z (py_round x) - x <= 1 # 2)%Q ∧ (x - inject_Z (py_round x) <= 1 # 2)%Q.
Proof.
  unfold py_round.
  pose proof (Qfloor_le x) as Hfl.
  pose proof (Qlt_floor x) as Hfu.
  rewrite inject_Z_plus in Hfu. change (inject_Z 1) with 1%Q in Hfu.
  destruct (x - inject_Z (Qfloor x) ?= 1 # 2)%Q eqn:Hc.
  - apply Qeq_alt in Hc.
    destruct (Z.even (Qfloor x)).
    + split; lra.
    + rewrite inject_Z_plus. change (inject_Z 1) with 1%Q. split; lra.
  - apply (proj2 (Qlt_alt _ _)) in Hc. split; lra.
  - apply (proj2 (Qgt_alt _ _)) in Hc.
    rewrite inject_Z_plus. change (inject_Z 1) with 1%Q. split; lra.
Qed.

(** A number that is not above an integer is not rounded above it, and
    likewise from below. *)
Lemma py_round_le_int (x : Q) (n : Z) :
  (x <= inject_Z n)%Q → (py_round x ≤ n)%Z.
Proof.
  intros Hn. destruct (py_round_nearest x) as [Hup _].
  apply Z.lt_succ_r. rewrite Zlt_Qlt. unfold Z.succ.
  rewrite inject_Z_plus. change (inject_Z 1) with 1%Q.
  destruct (Qlt_le_dec (inject_Z (py_round x)) (inject_Z n + 1)) as [|Hge];
    [done|exfalso].
  assert (inject_Z (py_round x) - x == 1 # 2)%Q as Htie by lra.
  assert (x == inject_Z n)%Q as Hx by lra.
  assert (inject_Z (py_round x) == inject_Z n + (1 # 2))%Q as Hr by lra.
  revert Hr. unfold Qeq. simpl. lia.
Qed.

Lemma py_round_ge_int (x : Q) (n : Z) :
  (inject_Z n <= x)%Q → (n ≤ py_round x)%Z.
Proof.
  intros Hn. destruct (py_round_nearest x) as [_ Hdown].
  apply Z.lt_pred_le. rewrite Zlt_Qlt. unfold Z.pred.
  rewrite inject_Z_plus. change (inject_Z (-1)) with (-1)%Q.
  destruct (Qlt_le_dec (inject_Z n + -1) (inject_Z (py_round x))) as [|Hge];
    [done|exfalso].
  assert (inject_Z (py_round x) == inject_Z n - (1 # 2))%Q as Hr by lra.
  revert Hr. unfold Qeq. simpl. lia.
Qed.

Lemma py_round_Z (n : Z) : py_round (inject_Z n) = n.
Proof.
  apply Z.le_antisymm; [apply py_round_le_int|apply py_round_ge_int]; lra.
Qed.

(** On a tie [py_round] returns the even neighbour. *)
Lemma py_round_tie_even (x : Q) :
  (Qabs (inject_Z (py_round x) - x) == 1 # 2)%Q → Z.even (py_round x) = true.
Proof.
  unfold py_round.
  pose proof (Qfloor_le x) as Hfl.
  pose proof (Qlt_floor x) as Hfu.
  rewrite inject_Z_plus in Hfu. change (inject_Z 1) with 1%Q in Hfu.
  destruct (x - inject_Z (Qfloor x) ?= 1 # 2)%Q eqn:Hc.
  - destruct (Z.even (Qfloor x)) eqn:He; [done|]. intros _.
    rewrite Z.even_add, He. done.
  - apply (proj2 (Qlt_alt _ _)) in Hc. intros Ht.
    rewrite Qabs_neg in Ht by lra. lra.
  - apply (proj2 (Qgt_alt _ _)) in Hc. intros Ht.
    rewrite inject_Z_plus in Ht. change (inject_Z 1) with 1%Q in Ht.
    rewrite Qabs_pos in Ht by lra. lra.
Qed.

(** No integer is nearer. *)
Lemma py_round_optimal (x : Q) (z : Z) :
  (Qabs (inject_Z (py_round x) - x) <= Qabs (inject_Z z - x))%Q.
Proof.
  destruct (py_round_nearest x) as [Hup Hdown].
  destruct (Z.lt_trichotomy z (py_round x)) as [Hlt|[->|Hgt]]; [|lra|].
  - assert (inject_Z z + 1 <= inject_Z (py_round x))%Q as Hz.
    { change 1%Q with (inject_Z 1). rewrite <-inject_Z_plus, <-Zle_Qle. lia. }
    apply Qabs_Qle_condition. rewrite (Qabs_neg (inject_Z z - x)) by lra.
    split; lra.
  - assert (inject_Z (py_round x) + 1 <= inject_Z z)%Q as Hz.
    { change 1%Q with (inject_Z 1). rewrite <-inject_Z_plus, <-Zle_Qle. lia. }
    apply Qabs_Qle_condition. rewrite (Qabs_pos (inject_Z z - x)) by lra.
    split; lra.
Qed.

Lemma py_round_tie (x : Q) (z : Z) :
  (Qabs (inject_Z (py_round x) - x) == Qabs (inject_Z z - x))%Q →
  z ≠ py_round x → Z.even (py_round x) = true.
Proof.
  intros Htie Hne. apply py_round_tie_even.
  destruct (py_round_nearest x) as [Hup Hdown].
  assert (inject_Z z + 1 <= inject_Z (py_round x) ∨
          inject_Z (py_round x) + 1 <= inject_Z z)%Q as Hz.
  { change 1%Q with (inject_Z 1). rewrite <-!inject_Z_plus, <-!Zle_Qle. lia. }
  set (n := inject_Z (py_round x)) in *. set (j := inject_Z z) in *.
  clearbody n j.
  destruct (Qlt_le_dec (n - x) 0) as [Hn|Hn];
    destruct (Qlt_le_dec (j - x) 0) as [Hj|Hj];
    rewrite ?(Qabs_neg (n - x)) in * by lra;
    rewrite ?(Qabs_pos (n - x)) in * by lra;
    rewrite ?(Qabs_neg (j - x)) in * by lra;
    rewrite ?(Qabs_pos (j - x)) in * by lra;
    destruct Hz; lra.
Qed.

Lemma py_round_nearest_integer (x : Q) : nearest_integer x (py_round x).
Proof.
  intros z. split; [apply py_round_optimal|apply py_round_tie].
Qed.

(** ** Rounding to binary64 *)

(** Powers of two. *)

Lemma pow2_pos (e : Z) : (0 < 2 ^ e)%Q.
Proof. by apply Qpower_0_lt. Qed.

Lemma pow2_plus (a b : Z) : (2 ^ (a + b) == 2 ^ a * 2 ^ b)%Q.
Proof. by apply Qpower_plus. Qed.

Lemma pow2_le (a b : Z) : (a ≤ b)%Z → (2 ^ a <= 2 ^ b)%Q.
Proof. intros. by apply Qpower_le_compat_l. Qed.

Lemma pow2_lt (a b : Z) : (a < b)%Z → (2 ^ a < 2 ^ b)%Q.
Proof. intros. by apply Qpower_lt_compat_l. Qed.

Lemma pow2_lt_inv (a b : Z) : (2 ^ a < 2 ^ b)%Q → (a < b)%Z.
Proof. intros. by apply (Qpower_lt_compat_l_inv 2). Qed.

Lemma pow2_inject (n : Z) : (0 ≤ n)%Z → (inject_Z (2 ^ n) == 2 ^ n)%Q.
Proof. intros. by apply Zpower_Qpower. Qed.

Lemma pow2_succ (a : Z) : (2 ^ (a + 1) == 2 * 2 ^ a)%Q.
Proof. rewrite pow2_plus. change (2 ^ 1)%Q with 2%Q. ring. Qed.

Lemma pow2_div (x : Q) (e : Z) : (x / 2 ^ e * 2 ^ e == x)%Q.
Proof. field. pose proof (pow2_pos e). lra. Qed.

(** The binade of a positive number. *)

Lemma ilog2_spec (x : Q) :
  (0 < x)%Q → (2 ^ ilog2 x <= x)%Q ∧ (x < 2 ^ (ilog2 x + 1))%Q.
Proof.
  intros Hx. destruct x as [n d]. unfold ilog2. cbn [Qnum Qden].
  assert (0 < n)%Z as Hn by (revert Hx; unfold Qlt; simpl; lia).
  destruct (Z.log2_spec n Hn) as [Han Hna].
  destruct (Z.log2_spec (Z.pos d) (Pos2Z.is_pos d)) as [Hbd Hdb].
  pose proof (Z.log2_nonneg n) as Ha0.
  pose proof (Z.log2_nonneg (Z.pos d)) as Hb0.
  set (a := Z.log2 n) in *. set (b := Z.log2 (Z.pos d)) in *.
  assert (inject_Z n == (n # d) * inject_Z (Z.pos d))%Q as Hnd.
  { unfold Qeq, Qmult, inject_Z. simpl. lia. }
  assert (2 ^ a <= inject_Z n)%Q as Han'.
  { rewrite <-pow2_inject by done. by rewrite <-Zle_Qle. }
  assert (inject_Z n < 2 ^ (a + 1))%Q as Hna'.
  { rewrite <-pow2_inject by lia. rewrite <-Zlt_Qlt. unfold Z.succ in Hna. done. }
  assert (2 ^ b <= inject_Z (Z.pos d))%Q as Hbd'.
  { rewrite <-pow2_inject by done. by rewrite <-Zle_Qle. }
  assert (inject_Z (Z.pos d) < 2 ^ (b + 1))%Q as Hdb'.
  { rewrite <-pow2_inject by lia. rewrite <-Zlt_Qlt. unfold Z.succ in Hdb. done. }
  set (q := n # d) in *. clearbody q.
  pose proof (pow2_pos b) as Hpb. pose proof (pow2_pos (a - b)) as Hpk.
  pose proof (pow2_pos (a - b - 1)) as Hpk1.
  assert (2 ^ a == 2 ^ (a - b) * 2 ^ b)%Q as Ha.
  { rewrite <-pow2_plus. by replace (a - b + b)%Z with a by lia. }
  rewrite pow2_succ in Hna', Hdb'.
  assert (2 ^ (a - b) == 2 * 2 ^ (a - b - 1))%Q as Hk.
  { rewrite <-pow2_succ. by replace (a - b - 1 + 1)%Z with (a - b)%Z by lia. }
  assert (Qle_bool (2 ^ (a - b)) q = true ↔ 2 ^ (a - b) <= q)%Q as Hbool
    by apply Qle_bool_iff.
  destruct (Qle_bool (2 ^ (a - b)) q).
  - rewrite pow2_succ.
    set (A := (2 ^ a)%Q) in *. set (X := (2 ^ (a - b))%Q) in *.
    set (Y := (2 ^ b)%Q) in *. set (D := inject_Z (Z.pos d)) in *.
    set (N := inject_Z n) in *. clearbody A X Y D N.
    split; [by apply Hbool|].
    apply Qnot_le_lt. intros Hge.
    assert (2 * X * Y <= q * D)%Q; [|lra].
    apply Qmult_le_compat_nonneg; split; lra.
  - replace (a - b - 1 + 1)%Z with (a - b)%Z by lia.
    rewrite Hk in Ha.
    set (A := (2 ^ a)%Q) in *. set (X := (2 ^ (a - b))%Q) in *.
    set (X1 := (2 ^ (a - b - 1))%Q) in *.
    set (Y := (2 ^ b)%Q) in *. set (D := inject_Z (Z.pos d)) in *.
    set (N := inject_Z n) in *. clearbody A X X1 Y D N.
    assert (q < X)%Q as Hlt.
    { apply Qnot_le_lt. intros Hle. apply Hbool in Hle. congruence. }
    split; [|done].
    apply Qnot_lt_le. intros Hlt'.
    assert (q * D < X1 * (2 * Y))%Q; [|lra].
    apply Qle_lt_trans with (q * (2 * Y))%Q.
    + apply Qmult_le_l; lra.
    + apply Qmult_lt_r; lra.
Qed.

Lemma ilog2_unique (x : Q) (k : Z) :
  (2 ^ k <= x)%Q → (x < 2 ^ (k + 1))%Q → ilog2 x = k.
Proof.
  intros Hl Hu. pose proof (pow2_pos k).
  destruct (ilog2_spec x) as [Hl' Hu']; [lra|].
  assert (ilog2 x < k + 1)%Z by (apply pow2_lt_inv; lra).
  assert (k < ilog2 x + 1)%Z by (apply pow2_lt_inv; lra).
  lia.
Qed.


Lemma round_binary64_zero (x : Q) : (x == 0)%Q → round_binary64 x = 0%Q.
Proof.
  intros Hx. unfold round_binary64.
  by rewrite (proj2 (Qeq_bool_iff x 0) Hx).
Qed.

Lemma round_binary64_nonzero (x : Q) :
  ¬ (x == 0)%Q →
  round_binary64 x
  = (inject_Z (py_round (x / 2 ^ ulp_exponent x)) * 2 ^ ulp_exponent x)%Q.
Proof.
  intros Hx. unfold round_binary64.
  destruct (Qeq_bool x 0) eqn:Hb; [|done].
  by apply Qeq_bool_iff in Hb.
Qed.

(** The binade and the last place of a positive number. *)
Lemma ulp_exponent_spec (x : Q) :
  (0 < x)%Q →
  ∃ k, ulp_exponent x = Z.max (k - 52) (-1074) ∧
       (2 ^ k <= x)%Q ∧ (x < 2 ^ (k + 1))%Q.
Proof.
  intros Hx. exists (ilog2 (Qabs x)). split; [done|].
  assert (Qabs x == x)%Q as Ha by (apply Qabs_pos; lra).
  destruct (ilog2_spec (Qabs x)) as [Hl Hu]; [lra|].
  set (k := ilog2 (Qabs x)) in *. clearbody k. split; lra.
Qed.

Lemma round_binary64_nonneg (x : Q) : (0 <= x)%Q → (0 <= round_binary64 x)%Q.
Proof.
  intros Hx. destruct (Qeq_dec x 0) as [Hz|Hz].
  { rewrite round_binary64_zero by done. lra. }
  rewrite round_binary64_nonzero by done.
  pose proof (pow2_pos (ulp_exponent x)) as Hp.
  apply Qmult_le_0_compat; [|lra].
  change 0%Q with (inject_Z 0). rewrite <-Zle_Qle.
  apply py_round_ge_int. change (inject_Z 0) with 0%Q.
  apply Qle_shift_div_l; [done|]. lra.
Qed.




(** An integer that fits the significand lies on the grid of the numbers
    below it. *)
Lemma ulp_exponent_int (x : Q) (K : Z) :
  (0 < x)%Q → (x <= inject_Z K)%Q → (K ≤ 2 ^ 53)%Z →
  ∃ J, (inject_Z J * 2 ^ ulp_exponent x == inject_Z K)%Q.
Proof.
  intros Hx HK H53.
  destruct (ulp_exponent_spec x Hx) as (k & -> & Hl & Hu).
  assert (inject_Z K <= 2 ^ 53)%Q as H53'.
  { rewrite <-pow2_inject by lia. by rewrite <-Zle_Qle. }
  assert (k < 53 + 1)%Z as Hk.
  { apply pow2_lt_inv. pose proof (pow2_lt 53 (53 + 1) eq_refl). lra. }
  destruct (decide (Z.max (k - 52) (-1074) ≤ 0)%Z) as [He|He].
  - set (e := Z.max (k - 52) (-1074)) in *.
    exists (K * 2 ^ (- e))%Z.
    rewrite inject_Z_mult, pow2_inject by lia.
    rewrite <-Qmult_assoc, <-pow2_plus.
    replace (- e + e)%Z with 0%Z by lia. change (2 ^ 0)%Q with 1%Q. ring.
  - assert (k = 53%Z) as -> by lia.
    assert (inject_Z K == 2 ^ 53)%Q as HK' by lra.
    exists (2 ^ 52)%Z. rewrite HK'. done.
Qed.

Lemma round_binary64_le_int (x : Q) (K : Z) :
  (0 <= x)%Q → (x <= inject_Z K)%Q → (K ≤ 2 ^ 53)%Z →
  (round_binary64 x <= inject_Z K)%Q.
Proof.
  intros Hx HK H53. destruct (Qeq_dec x 0) as [Hz|Hz].
  { rewrite round_binary64_zero by done. lra. }
  rewrite round_binary64_nonzero by done.
  destruct (ulp_exponent_int x K) as [J HJ]; [lra|done..|].
  pose proof (pow2_pos (ulp_exponent x)) as Hp.
  rewrite <-HJ. apply Qmult_le_compat_r; [|lra].
  rewrite <-Zle_Qle. apply py_round_le_int.
  apply Qle_shift_div_r; [done|]. by rewrite HJ.
Qed.

(** The conversion of an integer of at most 53 bits is exact. *)
Lemma float_of_int_exact (n : Z) :
  (0 ≤ n ≤ 2 ^ 53)%Z → (float_of_int n == inject_Z n)%Q.
Proof.
  intros [H0 H53]. unfold float_of_int.
  destruct (decide (n = 0%Z)) as [->|Hn]; [done|].
  assert (0 < inject_Z n)%Q as Hpos.
  { change 0%Q with (inject_Z 0). rewrite <-Zlt_Qlt. lia. }
  rewrite round_binary64_nonzero by lra.
  destruct (ulp_exponent_int (inject_Z n) n) as [J HJ]; [done|lra|done|].
  pose proof (pow2_pos (ulp_exponent (inject_Z n))) as Hp.
  rewrite (py_round_comp _ (inject_Z J)), py_round_Z; [done|].
  set (P := (2 ^ ulp_exponent (inject_Z n))%Q) in *. clearbody P.
  rewrite <-HJ. field. lra.
Qed.

Lemma Qabs_scale (a b P : Q) :
  (0 < P)%Q → (Qabs (a * P - b * P) == Qabs (a - b) * P)%Q.
Proof.
  intros HP. assert (a * P - b * P == (a - b) * P)%Q as -> by ring.
  rewrite Qabs_Qmult, (Qabs_pos P) by lra. done.
Qed.

Lemma round_binary64_nearest (x : Q) :
  (0 <= x)%Q → (x <= 2 ^ 53)%Q → nearest_binary64 x (round_binary64 x).
Proof.
  intros H0 H53. destruct (Qeq_dec x 0) as [Hz|Hz].
  { rewrite round_binary64_zero by done. split.
    - exists 0%Z, 0%Z. split; [done|]. split; [lia|]. done.
    - intros q _. split.
      + assert (0 - x == 0)%Q as -> by lra. apply Qabs_nonneg.
      + intros Htie Hq. exfalso. apply Hq.
        assert (0 - x == 0)%Q as Hx0 by lra.
        assert (q - x == q)%Q as Hqx by lra.
        rewrite Hx0, Hqx in Htie. change (Qabs 0) with 0%Q in Htie.
        destruct (Qlt_le_dec q 0).
        * rewrite Qabs_neg in Htie by lra. lra.
        * rewrite Qabs_pos in Htie by lra. lra. }
  assert (0 < x)%Q as Hx by lra.
  rewrite round_binary64_nonzero by done.
  destruct (ulp_exponent_spec x Hx) as (k & -> & Hl & Hu).
  assert (k < 53 + 1)%Z as Hk.
  { apply pow2_lt_inv. pose proof (pow2_lt 53 (53 + 1) eq_refl). lra. }
  set (e := Z.max (k - 52) (-1074)).
  assert (-1074 ≤ e ≤ 1)%Z as He by lia.
  pose proof (pow2_pos e) as HP.
  pose proof (pow2_div x e) as Hdiv.
  (* the significand before rounding is below 2^53 *)
  assert (2 ^ (k + 1) <= 2 ^ 53 * 2 ^ e)%Q as Htop.
  { rewrite <-pow2_plus. apply pow2_le. lia. }
  assert (x / 2 ^ e < 2 ^ 53)%Q as Hy53.
  { apply Qlt_shift_div_r; [done|]. lra. }
  assert (0 <= x / 2 ^ e)%Q as Hy0.
  { apply Qle_shift_div_l; [done|]. lra. }
  assert (e = (k - 52)%Z → 2 ^ 52 <= x / 2 ^ e)%Q as Hy52.
  { intros Hek. apply Qle_shift_div_l; [done|].
    rewrite <-pow2_plus. rewrite Hek.
    by replace (52 + (k - 52))%Z with k by lia. }
  set (y := (x / 2 ^ e)%Q) in *.
  pose proof (py_round_le_int y (2 ^ 53)) as Hm53.
  rewrite pow2_inject in Hm53 by lia. specialize (Hm53 (Qlt_le_weak _ _ Hy53)).
  pose proof (py_round_ge_int y 0 Hy0) as Hm0.
  assert (e = (k - 52)%Z → 2 ^ 52 ≤ py_round y)%Z as Hm52.
  { intros Hek. apply py_round_ge_int. rewrite pow2_inject by lia. auto. }
  assert (2 ^ 53 * 2 ^ e == 2 ^ 52 * 2 ^ (e + 1))%Q as Hcarry.
  { rewrite pow2_succ. change (2 ^ 53)%Q with (2 * 2 ^ 52)%Q. ring. }
  split.
  { (* the result is a binary64 number *)
    destruct (decide (py_round y = 2 ^ 53)%Z) as [Heq|Hneq].
    - exists (2 ^ 52)%Z, (e + 1)%Z. split; [done|]. split; [lia|].
      rewrite Heq, !pow2_inject by lia. exact Hcarry.
    - exists (py_round y), e. split; [lia|]. split; [lia|]. done. }
  intros q (m' & e' & Hm' & He' & Hq).
  destruct (decide (e ≤ e')%Z) as [Hee|Hee].
  - (* [q] lies on the grid *)
    set (j := (m' * 2 ^ (e' - e))%Z).
    assert (q == inject_Z j * 2 ^ e)%Q as Hqj.
    { rewrite Hq. unfold j. rewrite inject_Z_mult, pow2_inject by lia.
      rewrite <-Qmult_assoc, <-pow2_plus.
      by replace (e' - e + e)%Z with e' by lia. }
    assert (Qabs (inject_Z (py_round y) * 2 ^ e - x)
            == Qabs (inject_Z (py_round y) - y) * 2 ^ e)%Q as Hp.
    { rewrite <-Qabs_scale by done. by rewrite Hdiv. }
    assert (Qabs (q - x) == Qabs (inject_Z j - y) * 2 ^ e)%Q as Hqx.
    { rewrite <-Qabs_scale by done. by rewrite Hdiv, Hqj. }
    rewrite Hp, Hqx. split.
    + apply Qmult_le_compat_r; [apply py_round_optimal|lra].
    + intros Htie Hne.
      assert (Qabs (inject_Z (py_round y) - y) == Qabs (inject_Z j - y))%Q
        as Htie'.
      { apply (Qmult_inj_r _ _ (2 ^ e)); [lra|done]. }
      assert (j ≠ py_round y) as Hj.
      { intros Hj. apply Hne. by rewrite Hqj, Hj. }
      pose proof (py_round_tie y j Htie' Hj) as Heven.
      apply Z.even_spec in Heven as [m0 Hm0'].
      destruct (decide (py_round y = 2 ^ 53)%Z) as [Heq|Hneq].
      * exists (2 ^ 51)%Z, (e + 1)%Z. split; [done|]. split; [lia|].
        split; [by left|].
        rewrite Heq, !pow2_inject by lia. exact Hcarry.
      * exists m0, e. rewrite <-Hm0'. split; [lia|]. split; [lia|].
        split; [|done].
        destruct (decide (e = -1074)%Z) as [|Hsub]; [by right|left].
        rewrite Z.abs_eq by lia. apply Hm52. lia.
  - (* [q] lies below the binade of [x] *)
    assert (e = (k - 52)%Z) as Hek by lia.
    assert (2 ^ k == 2 ^ 52 * 2 ^ e)%Q as Hbin.
    { rewrite <-pow2_plus, Hek. by replace (52 + (k - 52))%Z with k by lia. }
    assert (q < 2 ^ k)%Q as Hqk.
    { rewrite Hq, Hbin.
      apply Qlt_le_trans with (2 ^ 53 * 2 ^ e')%Q.
      - apply Qmult_lt_compat_r; [apply pow2_pos|].
        rewrite <-pow2_inject by lia. rewrite <-Zlt_Qlt. lia.
      - change (2 ^ 53)%Q with (2 ^ 52 * 2)%Q.
        rewrite <-Qmult_assoc. apply Qmult_le_l; [done|].
        pose proof (pow2_le e' (e - 1) ltac:(lia)) as Hle.
        pose proof (pow2_succ (e - 1)) as Hs.
        replace (e - 1 + 1)%Z with e in Hs by lia. lra. }
    assert (Qabs (inject_Z (py_round y) * 2 ^ e - x) <= x - 2 ^ k)%Q as Hp.
    { assert (Qabs (inject_Z (py_round y) * 2 ^ e - x)
              == Qabs (inject_Z (py_round y) - y) * 2 ^ e)%Q as ->.
      { rewrite <-Qabs_scale by done. by rewrite Hdiv. }
      assert (x - 2 ^ k == Qabs (inject_Z (2 ^ 52) - y) * 2 ^ e)%Q as ->.
      { rewrite <-Qabs_scale by done. rewrite Hdiv, pow2_inject by lia.
        rewrite <-Hbin. rewrite Qabs_neg by lra. ring. }
      apply Qmult_le_compat_r; [apply py_round_optimal|lra]. }
    rewrite (Qabs_neg (q - x)) by lra. split; [lra|].
    intros Htie _. exfalso. lra.
Qed.

Lemma nearest_binary64_comp (x x' p : Q) :
  (x == x')%Q → nearest_binary64 x p → nearest_binary64 x' p.
Proof.
  intros Hx [Hp Hnear]. split; [done|].
  intros q Hq. destruct (Hnear q Hq) as [Hle Htie].
  rewrite <-Hx. done.
Qed.



(** The number of training subjects. *)

Lemma inject_Z_nonneg (n : Z) : (0 ≤ n)%Z → (0 <= inject_Z n)%Q.
Proof. intros. change 0%Q with (inject_Z 0). by rewrite <-Zle_Qle. Qed.

Lemma num_train_nonneg (N : Z) (r : Q) :
  (0 ≤ N)%Z → (0 <= r)%Q → (0 ≤ num_train N r)%Z.
Proof.
  intros HN Hr. unfold num_train, float_mul, float_of_int.
  apply py_round_ge_int. change (inject_Z 0) with 0%Q.
  apply round_binary64_nonneg, Qmult_le_0_compat; [|done].
  by apply round_binary64_nonneg, inject_Z_nonneg.
Qed.

Lemma num_train_le (N : Z) (r : Q) :
  (0 ≤ N ≤ 2 ^ 53)%Z → (0 <= r)%Q → (r <= 1)%Q → (num_train N r ≤ N)%Z.
Proof.
  intros [HN H53] H0 H1. unfold num_train, float_mul.
  pose proof (float_of_int_exact N (conj HN H53)) as Hexact.
  pose proof (inject_Z_nonneg N HN) as HNq.
  apply py_round_le_int, round_binary64_le_int; [| |done].
  - apply Qmult_le_0_compat; [|done]. rewrite Hexact. done.
  - rewrite Hexact. set (n := inject_Z N) in *. clearbody n. nra.
Qed.

(** ** The split allocator *)

Lemma py_slice_take {A} (l : list A) (a : Z) :
  (0 ≤ a)%Z → py_slice l (a - a) a = take (Z.to_nat a) l.
Proof.
  intros Ha. unfold py_slice. rewrite Z.sub_diag.
  rewrite !decide_False by lia.
  rewrite (Z.min_l 0), Z.sub_0_r by lia. change (Z.to_nat 0) with 0.
  rewrite drop_0.
  destruct (decide (a ≤ Z.of_nat (length l))%Z).
  - by rewrite Z.min_l by lia.
  - rewrite Z.min_r, Nat2Z.id by lia. by rewrite !take_ge by lia.
Qed.

Lemma py_slice_drop {A} (l : list A) (a b : Z) :
  (0 ≤ a)%Z → (a + b)%Z = Z.of_nat (length l) →
  py_slice l (a + b - b) (a + b) = drop (Z.to_nat a) l.
Proof.
  intros Ha Hab. unfold py_slice.
  rewrite !decide_False by lia.
  replace (a + b - b)%Z with a by lia. rewrite Hab, Z.min_id.
  rewrite take_ge by (rewrite length_drop; lia).
  destruct (decide (a ≤ Z.of_nat (length l))%Z).
  - by rewrite Z.min_l by lia.
  - rewrite Z.min_r, Nat2Z.id by lia. by rewrite !drop_ge by lia.
Qed.

Lemma fractions_to_lengths_one (a b : Z) :
  (0 ≤ a)%Z → (0 ≤ b)%Z → (a + b = 1)%Z →
  fractions_to_lengths 1 (a, b) = Ok (a, b).
Proof.
  intros Ha Hb Hab. unfold fractions_to_lengths.
  rewrite decide_False by lia. cbn [fst snd].
  replace (Z.to_nat (1 - (1 * a + 1 * b))) with 0 by lia.
  cbn [round_robin]. by rewrite !Z.mul_1_l.
Qed.

Lemma randperm_length `{Generator} n g : length (randperm n g).1 = n.
Proof. by rewrite randperm_Permutation, length_seq. Qed.

(** [random_split] with two lengths that sum to the size of the dataset,
    the first of them not negative: the first [a] indices of the
    permutation, and the rest.  The second length may be negative, unless
    the two sum to 1 and are read as fractions. *)
Lemma random_split_valid `{Generator} dataset (a b : Z) g :
  (0 ≤ a)%Z → (a + b)%Z = Z.of_nat (length dataset) →
  (a + b = 1 → 0 ≤ b)%Z →
  random_split dataset (a, b) g =
    Ok (mkSubset dataset (take (Z.to_nat a) (randperm (length dataset) g).1),
        mkSubset dataset (drop (Z.to_nat a) (randperm (length dataset) g).1),
        (randperm (length dataset) g).2).
Proof.
  intros Ha Hab Hb. unfold random_split. cbn [fst snd].
  assert ((if decide (a + b = 1)%Z
           then fractions_to_lengths (Z.of_nat (length dataset)) (a, b)
           else Ok (a, b)) = Ok (a, b)) as ->.
  { destruct (decide (a + b = 1)%Z) as [H1|]; [|done].
    rewrite <-Hab, H1. apply fractions_to_lengths_one; auto. }
  cbn [mbind result_bind fst snd].
  rewrite decide_False by (intros ?; lia).
  rewrite Hab, Nat2Z.id.
  pose proof (randperm_length (length dataset) g) as Hlen.
  destruct (randperm (length dataset) g) as [indices g'] eqn:Hr.
  cbn [fst snd] in *.
  rewrite py_slice_take by lia.
  rewrite <-Hab, py_slice_drop by lia.
  done.
Qed.

Lemma subset_iter_omap dataset indices :
  Forall (λ j, j < length dataset) indices →
  subset_iter dataset indices = omap (λ j, dataset !! j) indices.
Proof.
  induction 1 as [|j indices Hj _ IH]; [done|]. simpl.
  destruct (lookup_lt_is_Some_2 dataset j Hj) as [x ->].
  by rewrite IH.
Qed.

Lemma omap_lookup_seq {A} (pre l : list A) :
  omap (λ j, (pre ++ l) !! j) (seq (length pre) (length l)) = l.
Proof.
  revert pre. induction l as [|x l IH]; intros pre; [done|]. simpl.
  rewrite list_lookup_middle by done. f_equal.
  specialize (IH (pre ++ [x])).
  by rewrite <-app_assoc, length_app, Nat.add_1_r in IH.
Qed.

Lemma subset_iter_Permutation dataset indices :
  indices ≡ₚ seq 0 (length dataset) → subset_iter dataset indices ≡ₚ dataset.
Proof.
  intros Hp. rewrite subset_iter_omap.
  - rewrite Hp. pose proof (omap_lookup_seq [] dataset) as Heq.
    cbn [app length] in Heq. by rewrite Heq.
  - rewrite Hp. apply Forall_seq. lia.
Qed.

Lemma subset_iter_app dataset idx1 idx2 :
  Forall (λ j, j < length dataset) (idx1 ++ idx2) →
  subset_iter dataset idx1 ++ subset_iter dataset idx2
  = subset_iter dataset (idx1 ++ idx2).
Proof.
  intros H. pose proof H as [H1 H2]%Forall_app.
  by rewrite !subset_iter_omap, omap_app.
Qed.

Lemma subset_iter_length dataset indices :
  Forall (λ j, j < length dataset) indices →
  length (subset_iter dataset indices) = length indices.
Proof.
  induction 1 as [|j indices Hj _ IH]; [done|]. simpl.
  destruct (lookup_lt_is_Some_2 dataset j Hj) as [x ->].
  simpl. by rewrite IH.
Qed.

(** Any two lengths that are not negative and sum to the size of the
    dataset cut the permutation into two subsets of these sizes that share
    no position and together hold every item once.  This is all the
    partition needs of the rounded product: any value between 0 and the
    number of subjects will do. *)
Lemma random_split_partitions `{Generator} dataset (a b : Z) g :
  (0 ≤ a)%Z → (0 ≤ b)%Z → (a + b)%Z = Z.of_nat (length dataset) →
  ∃ train val g',
    random_split dataset (a, b) g = Ok (train, val, g') ∧
    Z.of_nat (seq_len (SubsetSeq train)) = a ∧
    Z.of_nat (seq_len (SubsetSeq val)) = b ∧
    length (seq_items (SubsetSeq train)) = seq_len (SubsetSeq train) ∧
    length (seq_items (SubsetSeq val)) = seq_len (SubsetSeq val) ∧
    sub_dataset train = dataset ∧ sub_dataset val = dataset ∧
    sub_indices train ++ sub_indices val ≡ₚ seq 0 (length dataset) ∧
    (∀ j, j ∈ sub_indices train → j ∉ sub_indices val) ∧
    seq_items (SubsetSeq train) ++ seq_items (SubsetSeq val) ≡ₚ dataset.
Proof.
  intros Ha Hb Hab.
  pose proof (random_split_valid dataset a b g Ha Hab (λ _, Hb)) as Hsplit.
  pose proof (randperm_Permutation (length dataset) g) as Hperm.
  pose proof (randperm_length (length dataset) g) as Hlen.
  set (indices := (randperm (length dataset) g).1) in *.
  assert (Forall (λ j, j < length dataset) indices) as Hrange.
  { rewrite Hperm. apply Forall_seq. lia. }
  assert (take (Z.to_nat a) indices ++ drop (Z.to_nat a) indices
          ≡ₚ seq 0 (length dataset)) as Hall.
  { by rewrite take_drop. }
  eexists _, _, _. split; [exact Hsplit|].
  cbn [seq_len seq_items sub_indices sub_dataset].
  rewrite length_take, length_drop, Hlen.
  split; [lia|]. split; [lia|].
  split.
  { rewrite subset_iter_length, length_take; [lia|].
    by apply Forall_take. }
  split.
  { rewrite subset_iter_length, length_drop; [lia|].
    by apply Forall_drop. }
  do 2 (split; [done|]).
  split; [done|].
  split.
  - assert (NoDup (take (Z.to_nat a) indices ++ drop (Z.to_nat a) indices))
      as Hnd.
    { rewrite Hall. apply NoDup_seq. }
    apply NoDup_app in Hnd as (_ & Hdisj & _). exact Hdisj.
  - rewrite subset_iter_app by (by rewrite take_drop).
    by apply subset_iter_Permutation.
Qed.

(** C1.  For every list of N training subjects (N at most [2^53], so that
    N is a float) and every ratio strictly between 0 and 1, whatever
    permutation the generator draws, the split allocator returns two
    subsets of sizes [round(N * ratio)] and [N - round(N * ratio)], where
    the product is the binary64 number nearest to N times the ratio (ties
    to the even significand) and its rounding the integer nearest to it
    (ties to the even integer); no position of the subject list is in
    both, and the two subsets together hold every subject exactly once. *)
Theorem split_allocator_partitions `{Generator} dm subs g :
  subjects dm = Some subs →
  (0 < train_val_ratio dm)%Q → (train_val_ratio dm < 1)%Q →
  (Z.of_nat (length subs) ≤ 2 ^ 53)%Z →
  let N := Z.of_nat (length subs) in
  let product := float_mul (float_of_int N) (train_val_ratio dm) in
  let n_train := py_round product in
  nearest_binary64 (inject_Z N * train_val_ratio dm) product ∧
  nearest_integer product n_train ∧
  ∃ train val g',
    split_subjects dm g = Ok (train, val, g') ∧
    Z.of_nat (seq_len (SubsetSeq train)) = n_train ∧
    Z.of_nat (seq_len (SubsetSeq val)) = (N - n_train)%Z ∧
    length (seq_items (SubsetSeq train)) = seq_len (SubsetSeq train) ∧
    length (seq_items (SubsetSeq val)) = seq_len (SubsetSeq val) ∧
    sub_dataset train = subs ∧ sub_dataset val = subs ∧
    sub_indices train ++ sub_indices val ≡ₚ seq 0 (length subs) ∧
    (∀ j, j ∈ sub_indices train → j ∉ sub_indices val) ∧
    seq_items (SubsetSeq train) ++ seq_items (SubsetSeq val) ≡ₚ subs.
Proof.
  intros Hs H0 H1 H53 N product n_train.
  assert (0 ≤ N)%Z as HN by lia.
  pose proof (float_of_int_exact N (conj HN H53)) as Hexact.
  pose proof (inject_Z_nonneg N HN) as HNq.
  assert (inject_Z N <= 2 ^ 53)%Q as H53q.
  { rewrite <-pow2_inject by lia. by rewrite <-Zle_Qle. }
  split.
  { apply (nearest_binary64_comp (float_of_int N * train_val_ratio dm));
      [by rewrite Hexact|].
    apply round_binary64_nearest; rewrite Hexact;
      set (n := inject_Z N) in *; clearbody n; nra. }
  split; [apply py_round_nearest_integer|].
  assert (0 ≤ n_train ≤ N)%Z as Hn.
  { split; [apply num_train_nonneg|apply num_train_le]; lra || lia. }
  unfold split_subjects. rewrite Hs. cbn [expect mbind result_bind].
  apply random_split_partitions; unfold n_train, product in *;
    fold (num_train N (train_val_ratio dm)) in *; lia.
Qed.

(** ** The transform pipelines *)

(** Induction over transforms that reaches the steps of a [Compose]. *)
Lemma Transform_nested_ind (P : Transform → Prop) :
  (∀ t, (∀ ts, t ≠ Compose ts) → P t) →
  (∀ ts, Forall P ts → P (Compose ts)) →
  ∀ t, P t.
Proof.
  intros Hprim Hcomp.
  fix IH 1. intros [| | | | | | | | |ts]; try (apply Hprim; intros ?; discriminate).
  apply Hcomp. induction ts as [|t ts IHts]; constructor; [apply IH|apply IHts].
Qed.

Lemma steps_Compose ts : steps (Compose ts) = concat (steps <$> ts).
Proof. induction ts as [|t ts IH]; [done|]. simpl in *. by rewrite IH. Qed.

Lemma apply_transform_Compose {X} (run : Transform → X → X) ts x :
  apply_transform run (Compose ts) x
  = foldl (λ x t, apply_transform run t x) x ts.
Proof. revert x. induction ts as [|t ts IH]; intros x; [done|]. apply IH. Qed.

(** A pipeline runs its elementary steps one after the other, in the order
    [steps] lists them. *)
Lemma apply_transform_steps {X} (run : Transform → X → X) t x :
  apply_transform run t x = foldl (λ x s, run s x) x (steps t).
Proof.
  revert x. induction t as [t Hprim|ts IH] using Transform_nested_ind;
    intros x.
  - destruct t; try done. by destruct (Hprim transforms).
  - rewrite apply_transform_Compose, steps_Compose.
    revert x. induction IH as [|t ts Ht _ IHts]; intros x; [done|].
    cbn [foldl fmap list_fmap concat]. rewrite foldl_app, <-Ht. apply IHts.
Qed.

Lemma get_preprocessing_transform_inv dm pre :
  get_preprocessing_transform dm = Ok pre →
  ∃ subs tsubs target,
    subjects dm = Some subs ∧ test_subjects dm = Some tsubs ∧
    get_max_shape (subs ++ tsubs) = Ok target ∧
    pre = Compose (preprocessing_steps target).
Proof.
  unfold get_preprocessing_transform.
  destruct (subjects dm) as [subs|]; [|done].
  destruct (test_subjects dm) as [tsubs|]; [|done].
  cbn [expect mbind result_bind].
  destruct (get_max_shape (subs ++ tsubs)) as [target|] eqn:Hmax; [|done].
  intros [= <-]. by exists subs, tsubs, target.
Qed.

(** What a successful [setup] leaves in the data module. *)
Lemma setup_inv `{Generator} dm g dm' g' :
  setup dm g = Ok (dm', g') →
  ∃ train_subjects val_subjects pre tsubs,
    split_subjects dm g = Ok (train_subjects, val_subjects, g') ∧
    get_preprocessing_transform dm = Ok pre ∧
    test_subjects dm = Some tsubs ∧
    seq_len (SubsetSeq train_subjects) ≠ 0 ∧
    seq_len (SubsetSeq val_subjects) ≠ 0 ∧
    tsubs ≠ [] ∧
    dm' = set_pipeline dm pre (Compose [pre; get_augmentation_transform])
            (mkSubjectsDataset (SubsetSeq train_subjects)
               (Some (Compose [pre; get_augmentation_transform])))
            (mkSubjectsDataset (SubsetSeq val_subjects) (Some pre))
            (mkSubjectsDataset (ListSeq tsubs) (Some pre)).
Proof.
  unfold setup, new_SubjectsDataset.
  destruct (split_subjects dm g) as [[[train val] g'']|]; [|done].
  destruct (get_preprocessing_transform dm) as [pre|] eqn:Hpre; [|done].
  cbn [mbind result_bind].
  destruct (decide (seq_len (SubsetSeq train) = 0)); [done|].
  destruct (decide (seq_len (SubsetSeq val) = 0)); [done|].
  destruct (test_subjects dm) as [tsubs|]; [|done].
  cbn [mbind result_bind expect].
  destruct (decide (seq_len (ListSeq tsubs) = 0)) as [|Hts]; [done|].
  intros [= <- <-]. exists train, val, pre, tsubs.
  repeat split; try done. by intros ->.
Qed.

Lemma dataset_apply_steps {X} (run : Transform → X → X) ds x :
  dataset_apply run ds x = foldl (λ x s, run s x) x (dataset_steps ds).
Proof.
  unfold dataset_apply, dataset_steps.
  destruct (ds_transform ds); [apply apply_transform_steps | done].
Qed.

(** C5.  After [setup], the validation and the test set apply to each
    subject the four preprocessing steps, in the order intensity rescale,
    pad-or-crop, padding to a multiple of 8, one-hot encoding; the training
    set applies the same four steps in the same order and then the
    augmentation steps, none of which runs before preprocessing is
    complete. *)
Theorem pipelines_run_preprocessing_then_augmentation `{Generator}
    dm g dm' g' :
  setup dm g = Ok (dm', g') →
  ∃ target train val test,
    train_set dm' = Some train ∧
    val_set dm' = Some val ∧
    test_set dm' = Some test ∧
    dataset_steps train = preprocessing_steps target ++ augmentation_steps ∧
    dataset_steps val = preprocessing_steps target ∧
    dataset_steps test = preprocessing_steps target ∧
    ∀ X (run : Transform → X → X) (x : X),
      let preprocessed :=
        run (OneHot (-1))
          (run (EnsureShapeMultiple 8)
             (run (CropOrPad target) (run (RescaleIntensity (-1) 1) x))) in
      dataset_apply run val x = preprocessed ∧
      dataset_apply run test x = preprocessed ∧
      dataset_apply run train x
      = foldl (λ x s, run s x) preprocessed augmentation_steps.
Proof.
  intros (train & val & pre & tsubs & _ & Hpre & _ & _ & _ & _ & ->)%setup_inv.
  apply get_preprocessing_transform_inv in Hpre
    as (subs & tsubs' & target & _ & _ & _ & ->).
  eexists target, _, _, _. cbn [set_pipeline train_set val_set test_set].
  do 3 (split; [reflexivity|]).
  do 3 (split; [reflexivity|]).
  intros X run x. by rewrite !dataset_apply_steps.
Qed.

(** ** The target shape of pad-or-crop *)

Lemma foldl_axis_max_is_axis_max sh rest :
  is_axis_max (foldl axis_max sh rest) (sh :: rest).
Proof.
  induction rest as [|x rest IH] using rev_ind.
  - simpl. split; [|split; [|split]].
    + by intros ? ->%list_elem_of_singleton.
    + exists sh. split; [apply list_elem_of_here|done].
    + exists sh. split; [apply list_elem_of_here|done].
    + exists sh. split; [apply list_elem_of_here|done].
  - rewrite foldl_app. cbn [foldl].
    destruct IH as (Hle & (s1 & Hs1 & E1) & (s2 & Hs2 & E2) & (s3 & Hs3 & E3)).
    set (m := foldl axis_max sh rest) in *.
    assert (∀ s, s ∈ sh :: rest → s ∈ sh :: rest ++ [x]) as Hin.
    { intros s Hs. rewrite app_comm_cons. apply elem_of_app. by left. }
    assert (x ∈ sh :: rest ++ [x]) as Hx.
    { rewrite app_comm_cons. apply elem_of_app. right.
      apply list_elem_of_here. }
    unfold is_axis_max, axis_max. cbn [fst snd]. split; [|split; [|split]].
    + intros s Hs. rewrite app_comm_cons in Hs.
      apply elem_of_app in Hs as [Hs| ->%list_elem_of_singleton].
      * destruct (Hle s Hs) as (? & ? & ?). lia.
      * lia.
    + destruct (Nat.max_spec m.1.1 x.1.1) as [[_ ->]|[_ ->]];
        [exists x|exists s1]; auto.
    + destruct (Nat.max_spec m.1.2 x.1.2) as [[_ ->]|[_ ->]];
        [exists x|exists s2]; auto.
    + destruct (Nat.max_spec m.2 x.2) as [[_ ->]|[_ ->]];
        [exists x|exists s3]; auto.
Qed.

Lemma mapM_result_app {A B} (f : A → result B) l1 l2 ys1 ys2 :
  mapM f l1 = Ok ys1 → mapM f l2 = Ok ys2 →
  mapM f (l1 ++ l2) = Ok (ys1 ++ ys2).
Proof.
  revert ys1. induction l1 as [|a l1 IH]; intros ys1; simpl.
  - by intros [= <-].
  - destruct (f a) as [y|]; [|done]. cbn [mbind result_bind].
    destruct (mapM f l1) as [ys|] eqn:Hm; [|done].
    cbn [mbind result_bind mret result_ret].
    intros [= <-] H2. by rewrite (IH ys eq_refl H2).
Qed.

Lemma mapM_result_length {A B} (f : A → result B) l ys :
  mapM f l = Ok ys → length ys = length l.
Proof.
  revert ys. induction l as [|a l IH]; intros ys; simpl.
  - by intros [= <-].
  - destruct (f a) as [y|]; [|done]. cbn [mbind result_bind].
    destruct (mapM f l) as [ys'|]; [|done].
    cbn [mbind result_bind mret result_ret].
    intros [= <-]. simpl. by rewrite (IH ys').
Qed.

Lemma mapM_result_elem_of {A B} (f : A → result B) l ys y :
  mapM f l = Ok ys → y ∈ ys ↔ ∃ x, x ∈ l ∧ f x = Ok y.
Proof.
  revert ys. induction l as [|a l IH]; intros ys; simpl.
  - intros [= <-]. split; [by intros ?%elem_of_nil|].
    by intros (? & ?%elem_of_nil & _).
  - destruct (f a) as [b|] eqn:Hfa; [|done]. cbn [mbind result_bind].
    destruct (mapM f l) as [ys'|]; [|done].
    cbn [mbind result_bind mret result_ret]. intros [= <-].
    rewrite elem_of_cons, (IH ys' eq_refl). split.
    + intros [->|(x & Hx & Hfx)].
      * exists a. split; [apply list_elem_of_here|done].
      * exists x. split; [by apply list_elem_of_further|done].
    + intros (x & [->|Hx]%elem_of_cons & Hfx).
      * left. congruence.
      * right. by exists x.
Qed.

Lemma get_max_shape_inv pool target :
  get_max_shape pool = Ok target →
  ∃ sh rest, mapM spatial_shape pool = Ok (sh :: rest) ∧
             target = foldl axis_max sh rest.
Proof.
  unfold get_max_shape, new_SubjectsDataset. cbn [seq_len].
  destruct (decide (length pool = 0)); [done|].
  cbn [mbind result_bind ds_subjects seq_items].
  destruct (mapM spatial_shape pool) as [[|sh rest]|]; [done| |done].
  cbn [mbind result_bind shapes_max]. intros [= <-]. by exists sh, rest.
Qed.

Lemma get_max_shape_intro pool sh rest :
  mapM spatial_shape pool = Ok (sh :: rest) →
  get_max_shape pool = Ok (foldl axis_max sh rest).
Proof.
  intros Hm. unfold get_max_shape, new_SubjectsDataset. cbn [seq_len].
  pose proof (mapM_result_length _ _ _ Hm) as Hlen.
  destruct (decide (length pool = 0)) as [Hz|_].
  { rewrite Hz in Hlen. done. }
  cbn [mbind result_bind ds_subjects seq_items]. by rewrite Hm.
Qed.

Lemma setup_intro `{Generator} dm g train val g' pre tsubs :
  split_subjects dm g = Ok (train, val, g') →
  get_preprocessing_transform dm = Ok pre →
  test_subjects dm = Some tsubs →
  seq_len (SubsetSeq train) ≠ 0 → seq_len (SubsetSeq val) ≠ 0 → tsubs ≠ [] →
  setup dm g =
    Ok (set_pipeline dm pre (Compose [pre; get_augmentation_transform])
          (mkSubjectsDataset (SubsetSeq train)
             (Some (Compose [pre; get_augmentation_transform])))
          (mkSubjectsDataset (SubsetSeq val) (Some pre))
          (mkSubjectsDataset (ListSeq tsubs) (Some pre)), g').
Proof.
  intros Hsplit Hpre Hts Htrain Hval Hne.
  unfold setup, new_SubjectsDataset. rewrite Hsplit, Hpre, Hts.
  cbn [mbind result_bind expect].
  rewrite !decide_False; [done|..]; try done.
  cbn [seq_len]. by destruct tsubs.
Qed.

Lemma pads_or_crops_to_set_pipeline dm target train val tsubs :
  let pre := Compose (preprocessing_steps target) in
  pads_or_crops_to
    (set_pipeline dm pre (Compose [pre; get_augmentation_transform])
       (mkSubjectsDataset (SubsetSeq train)
          (Some (Compose [pre; get_augmentation_transform])))
       (mkSubjectsDataset (SubsetSeq val) (Some pre))
       (mkSubjectsDataset (ListSeq tsubs) (Some pre)))
    target.
Proof. intros pre. by eexists _, _, _. Qed.

Lemma axis_max_id target sh :
  axis_max target sh = target ↔
  sh.1.1 ≤ target.1.1 ∧ sh.1.2 ≤ target.1.2 ∧ sh.2 ≤ target.2.
Proof.
  destruct target as [[a b] c], sh as [[x y] z]. unfold axis_max.
  cbn [fst snd]. split.
  - intros [= ? ? ?]. lia.
  - intros (? & ? & ?). f_equal; [f_equal|]; lia.
Qed.

(** C3.  After [setup], every split pads or crops to one target shape: the
    per-axis maximum of the spatial shapes of the training and the test
    subjects together, computed when the pipeline is built.  So moving the
    test pool moves the target of every split: with one more test subject
    the target becomes the per-axis maximum of the former target and the
    shape of that subject, which differs from the former target as soon as
    the new subject is larger along some axis. *)
Theorem crop_target_is_maximum_over_train_and_test `{Generator}
    dm g dm' g' subs tsubs :
  subjects dm = Some subs →
  test_subjects dm = Some tsubs →
  setup dm g = Ok (dm', g') →
  ∃ shapes target,
    mapM spatial_shape (subs ++ tsubs) = Ok shapes ∧
    is_axis_max target shapes ∧
    preprocess dm' = Some (Compose (preprocessing_steps target)) ∧
    pads_or_crops_to dm' target ∧
    ∀ t sh,
      spatial_shape t = Ok sh →
      (∃ dm'', setup (add_test_subject dm t) g = Ok (dm'', g') ∧
               pads_or_crops_to dm'' (axis_max target sh)) ∧
      (axis_max target sh = target ↔
       sh.1.1 ≤ target.1.1 ∧ sh.1.2 ≤ target.1.2 ∧ sh.2 ≤ target.2).
Proof.
  intros Hsubs Htsubs Hsetup.
  apply setup_inv in Hsetup
    as (train & val & pre & tsubs' & Hsplit & Hpre & Hts & Htr & Hva & Hne & ->).
  apply get_preprocessing_transform_inv in Hpre
    as (subs' & tsubs'' & target & Hs' & Ht' & Hmax & ->).
  rewrite Hsubs in Hs'. rewrite Htsubs in Hts, Ht'.
  injection Hs' as <-. injection Ht' as <-. injection Hts as <-.
  apply get_max_shape_inv in Hmax as (sh0 & rest & Hshapes & ->).
  exists (sh0 :: rest), (foldl axis_max sh0 rest).
  split; [done|]. split; [apply foldl_axis_max_is_axis_max|].
  split; [done|]. split; [apply pads_or_crops_to_set_pipeline|].
  intros t sh Ht. split; [|apply axis_max_id].
  eexists. split; [|apply pads_or_crops_to_set_pipeline].
  apply setup_intro with (tsubs := tsubs ++ [t]); try done.
  - unfold get_preprocessing_transform, add_test_subject.
    cbn [subjects test_subjects]. rewrite Hsubs, Htsubs.
    cbn [fmap option_fmap option_map expect mbind result_bind].
    rewrite app_assoc.
    rewrite (get_max_shape_intro _ sh0 (rest ++ [sh])).
    + cbn [mbind result_bind]. by rewrite foldl_app.
    + apply (mapM_result_app _ _ [t] (sh0 :: rest) [sh]); [done|].
      simpl. by rewrite Ht.
  - unfold add_test_subject. cbn [test_subjects]. by rewrite Htsubs.
  - by destruct tsubs.
Qed.

(** ** The batch loaders *)

Lemma batch_sampler_short bs batch indices :
  length batch + length indices < bs →
  batch_sampler bs false batch indices
  = if bool_decide (0 < length (batch ++ indices)) then [batch ++ indices]
    else [].
Proof.
  revert batch. induction indices as [|idx indices IH]; intros batch Hlen.
  - cbn [batch_sampler]. by rewrite app_nil_r, andb_true_r.
  - cbn [batch_sampler]. simpl in Hlen.
    rewrite decide_False by (rewrite length_app; simpl; lia).
    rewrite IH by (rewrite length_app; simpl; lia).
    by rewrite <-app_assoc.
Qed.

Lemma batch_sampler_full bs batch indices :
  length batch < bs → bs ≤ length batch + length indices →
  batch_sampler bs false batch indices
  = take bs (batch ++ indices)
    :: batch_sampler bs false [] (drop bs (batch ++ indices)).
Proof.
  revert batch. induction indices as [|idx indices IH]; intros batch Hlt Hle.
  - simpl in Hle. lia.
  - cbn [batch_sampler]. simpl in Hle.
    destruct (decide (length (batch ++ [idx]) = bs)) as [Heq|Hne].
    + rewrite (assoc_L (++) batch [idx] indices : batch ++ idx :: indices = _).
      by rewrite <-Heq, take_app_length, drop_app_length.
    + rewrite length_app in Hne. simpl in Hne.
      rewrite IH by (rewrite length_app; simpl; lia).
      by rewrite <-app_assoc.
Qed.

Lemma batch_sampler_concat bs batch indices :
  concat (batch_sampler bs false batch indices) = batch ++ indices.
Proof.
  revert batch. induction indices as [|idx indices IH]; intros batch.
  - cbn [batch_sampler]. rewrite andb_true_r, app_nil_r.
    destruct batch; [done|]. simpl. by rewrite app_nil_r.
  - cbn [batch_sampler].
    destruct (decide (length (batch ++ [idx]) = bs)).
    + cbn [concat]. by rewrite IH, <-app_assoc.
    + by rewrite IH, <-app_assoc.
Qed.

(** Batch [i] is the [i]-th run of [bs] consecutive indices; only the last
    batch can be shorter, and no batch is empty. *)
Lemma batch_sampler_lookup bs indices i b :
  0 < bs →
  batch_sampler bs false [] indices !! i = Some b →
  b = take bs (drop (i * bs) indices) ∧ b ≠ [].
Proof.
  intros Hbs. revert indices.
  induction i as [|i IH]; intros indices;
    (destruct (decide (length indices < bs)) as [Hshort|Hfull];
     [rewrite batch_sampler_short by (simpl; lia)
     |rewrite batch_sampler_full by (simpl; lia)]); cbn [app].
  - destruct indices as [|idx indices]; [done|]. simpl.
    intros [= <-]. split; [|done].
    rewrite take_ge; [done|]. simpl in *. lia.
  - simpl. intros [= <-]. split; [done|].
    destruct indices; [simpl in *; lia|]. destruct bs; [lia|done].
  - by destruct (bool_decide _).
  - cbn [lookup list_lookup]. intros Hb%IH.
    rewrite drop_drop in Hb. by replace (S i * bs) with (bs + i * bs) by lia.
Qed.

Lemma py_slice_elem_of {A} (l : list A) a b x : x ∈ py_slice l a b → x ∈ l.
Proof.
  unfold py_slice. intros Hx. eapply subseteq_drop, subseteq_take, Hx.
Qed.

(** Whatever the lengths, the subsets [random_split] returns view the
    dataset it was given through positions of that dataset. *)
Lemma random_split_in_range `{Generator} dataset lengths g train val g' :
  random_split dataset lengths g = Ok (train, val, g') →
  sub_dataset train = dataset ∧ sub_dataset val = dataset ∧
  Forall (λ j, j < length dataset) (sub_indices train) ∧
  Forall (λ j, j < length dataset) (sub_indices val).
Proof.
  unfold random_split.
  destruct (if decide (lengths.1 + lengths.2 = 1)%Z
            then fractions_to_lengths _ lengths else Ok lengths)
    as [[a b]|]; [|done].
  cbn [mbind result_bind fst snd].
  destruct (decide (a + b ≠ Z.of_nat (length dataset))%Z) as [|Hsum]; [done|].
  apply dec_stable in Hsum. rewrite Hsum, Nat2Z.id.
  pose proof (randperm_Permutation (length dataset) g) as Hperm.
  destruct (randperm (length dataset) g) as [indices g''].
  cbn [fst] in Hperm. intros [= <- <- <-]. cbn [sub_dataset sub_indices].
  assert (Forall (λ j, j < length dataset) indices) as Hall.
  { rewrite Hperm. apply Forall_seq. lia. }
  rewrite Forall_forall in Hall.
  repeat split; try done; apply Forall_forall; intros j Hj;
    by apply py_slice_elem_of, Hall in Hj.
Qed.

Lemma subset_iter_lookup dataset indices i :
  Forall (λ j, j < length dataset) indices →
  subset_iter dataset indices !! i = (j ← indices !! i; dataset !! j).
Proof.
  intros Hall. revert i.
  induction Hall as [|j indices Hj _ IH]; intros i; [done|]. simpl.
  destruct (lookup_lt_is_Some_2 dataset j Hj) as [x Hx]. rewrite Hx.
  destruct i as [|i]; simpl; [by rewrite Hx|apply IH].
Qed.

Lemma seq_getitem_items q i :
  seq_in_range q → seq_getitem q i = seq_items q !! i.
Proof.
  destruct q as [l|s]; [done|]. simpl. intros Hall.
  by rewrite subset_iter_lookup.
Qed.

Lemma setup_datasets_in_range `{Generator} dm g dm' g' which ds :
  setup dm g = Ok (dm', g') →
  split_set which dm' = Some ds →
  seq_in_range (ds_subjects ds).
Proof.
  intros (train & val & pre & tsubs & Hsplit & _ & _ & _ & _ & _ & ->)%setup_inv.
  unfold split_subjects in Hsplit.
  destruct (subjects dm) as [subs|]; [|done].
  cbn [expect mbind result_bind] in Hsplit.
  apply random_split_in_range in Hsplit as (Ht & Hv & Hti & Hvi).
  destruct which; cbn [split_set set_pipeline train_set val_set test_set];
    intros [= <-]; cbn [ds_subjects seq_in_range]; [by rewrite Ht|by rewrite Hv|done].
Qed.

Lemma setup_split_set_is_Some `{Generator} dm g dm' g' which :
  setup dm g = Ok (dm', g') →
  batch_size dm' = batch_size dm ∧ is_Some (split_set which dm').
Proof.
  intros (train & val & pre & tsubs & _ & _ & _ & _ & _ & _ & ->)%setup_inv.
  split; [done|]. by destruct which.
Qed.

Lemma seq_len_items q : seq_in_range q → length (seq_items q) = seq_len q.
Proof.
  destruct q as [l|s]; [done|]. simpl. apply subset_iter_length.
Qed.

Lemma fetch_run (q : SubjectSeq) k m :
  seq_in_range q → k + m ≤ seq_len q →
  mapM (λ i, expect IndexError (seq_getitem q i)) (seq k m)
  = Ok (take m (drop k (seq_items q))).
Proof.
  intros Hrange. rewrite <-(seq_len_items q Hrange).
  revert k. induction m as [|m IH]; intros k Hkm.
  - by rewrite take_0.
  - cbn [seq mapM]. rewrite (seq_getitem_items q k Hrange).
    destruct (lookup_lt_is_Some_2 (seq_items q) k) as [x Hx]; [lia|].
    rewrite Hx. cbn [expect mbind result_bind].
    rewrite IH by lia. cbn [mbind result_bind mret result_ret].
    f_equal. rewrite (drop_S _ x k Hx). cbn [take].
    by rewrite <-Nat.add_1_r, Nat.add_comm.
Qed.

Lemma take_drop_seq bs k n :
  take bs (drop k (seq 0 n)) = seq k (bs `min` (n - k)).
Proof.
  destruct (decide (k ≤ n)) as [Hk|Hk].
  - replace n with (k + (n - k)) at 1 by lia.
    rewrite seq_app, drop_app_length'; [|by rewrite length_seq].
    cbn [Nat.add]. destruct (decide (bs ≤ n - k)).
    + rewrite Nat.min_l by done. replace (n - k) with (bs + (n - k - bs)) by lia.
      rewrite seq_app, take_app_length'; [done|by rewrite length_seq].
    + rewrite Nat.min_r by lia. apply take_ge. rewrite length_seq. lia.
  - rewrite drop_ge by (rewrite length_seq; lia).
    replace (n - k) with 0 by lia. by rewrite take_nil, Nat.min_0_r.
Qed.

(** A loader that does not shuffle: the pass draws the base seed of its
    iterator, and the batches are cut from the positions in order. *)
Lemma batches_sequential `{Generator} ds bs g :
  batches (mkDataLoader (Some ds) bs false false) g
  = Ok (batch_sampler (Z.to_nat bs) false []
          (seq 0 (seq_len (ds_subjects ds))), (random_ g).2).
Proof. unfold batches, sampler. by destruct (random_ g). Qed.

(** C9.  After [setup], and for a positive batch size, each of the three
    loaders is built with shuffling off and with the batch size of the data
    module.  A pass over it visits the positions 0, 1, ... of its split in
    that order, [batch_size] at a time (only the last batch can be
    shorter): batch [i] reads the [i]-th run of [batch_size] subjects of
    the split, in the order of the split.  The batches are the same
    whatever the state of the generator when the pass starts: every pass,
    hence every epoch, yields the same batches. *)
Theorem loaders_keep_split_order `{Generator} dm0 g0 dm g1 which :
  setup dm0 g0 = Ok (dm, g1) →
  (0 < batch_size dm)%Z →
  ∃ dl ds,
    dataloader which dm = Ok dl ∧
    split_set which dm = Some ds ∧
    dl_dataset dl = Some ds ∧
    dl_shuffle dl = false ∧
    dl_batch_size dl = batch_size dm ∧
    let n := seq_len (ds_subjects ds) in
    let bs := Z.to_nat (batch_size dm) in
    ∃ bl,
      (∀ g, ∃ g', batches dl g = Ok (bl, g')) ∧
      concat bl = seq 0 n ∧
      (∀ i b, bl !! i = Some b →
              b = take bs (drop (i * bs) (seq 0 n)) ∧ b ≠ [] ∧
              fetch dl b
              = Ok (take bs (drop (i * bs) (seq_items (ds_subjects ds))))).
Proof.
  intros Hsetup Hbs.
  destruct (setup_split_set_is_Some dm0 g0 dm g1 which Hsetup) as [_ [ds Hds]].
  pose proof (setup_datasets_in_range _ _ _ _ which ds Hsetup Hds) as Hrange.
  exists (mkDataLoader (Some ds) (batch_size dm) false false), ds.
  split.
  { destruct which; cbn [dataloader split_set] in *;
      unfold train_dataloader, val_dataloader, test_dataloader, new_DataLoader;
      rewrite Hds; by rewrite decide_False by lia. }
  do 4 (split; [done|]).
  intros n bs. eexists. split.
  { intros g. eexists. apply batches_sequential. }
  fold n bs.
  split; [apply batch_sampler_concat|].
  intros i b Hb.
  apply batch_sampler_lookup in Hb as [-> Hne]; [|lia].
  do 2 (split; [done|]).
  assert (i * bs < n) as Hi.
  { destruct (decide (i * bs < n)); [done|]. destruct Hne.
    rewrite drop_ge; [apply take_nil|]. rewrite length_seq. lia. }
  unfold fetch. cbn [dl_dataset expect mbind result_bind].
  rewrite take_drop_seq. subst n.
  rewrite fetch_run; [|done|lia]. f_equal.
  destruct (decide (bs ≤ seq_len (ds_subjects ds) - i * bs)).
  - by rewrite Nat.min_l.
  - rewrite Nat.min_r by lia.
    rewrite !take_ge; [done|..]; rewrite length_drop, seq_len_items by done;
      lia.
Qed.

(** ** The model wrapper *)

Lemma prepare_batch_Ok {Tensor} (batch : @Batch Tensor) image label x y :
  batch !! "image" = Some image → image !! DATA = Some x →
  batch !! "label" = Some label → label !! DATA = Some y →
  prepare_batch batch = Ok (x, y).
Proof.
  intros Hi Hx Hl Hy. unfold prepare_batch.
  rewrite Hi. cbn [expect mbind result_bind]. rewrite Hx.
  cbn [expect mbind result_bind]. rewrite Hl.
  cbn [expect mbind result_bind]. by rewrite Hy.
Qed.

(** C7.  On the same batch and the same model, [validation_step] computes
    what [training_step] computes: both read the tensors under the keys
    [image] and [label], forward the image through the network and apply
    the criterion to the output and the label.  They return the same loss,
    or raise the same exception, and differ only in the entry they log:
    [train_loss], shown in the progress bar, against [val_loss]. *)
Theorem validation_step_computes_training_loss {Tensor}
    (tensor_len : Tensor → nat) (m : Model) (batch : Batch)
    (i j : nat) (logs : list LogEntry) :
  fst <$> training_step tensor_len m batch i logs
  = fst <$> validation_step tensor_len m batch j logs ∧
  match prepare_batch batch with
  | Ok (x, y) =>
      let loss := criterion m (net m x) y in
      training_step tensor_len m batch i logs
      = Ok (loss, logs ++ [mkLogEntry "train_loss" loss true (tensor_len y)]) ∧
      validation_step tensor_len m batch j logs
      = Ok (loss, logs ++ [mkLogEntry "val_loss" loss false (tensor_len y)])
  | Err e =>
      training_step tensor_len m batch i logs = Err e ∧
      validation_step tensor_len m batch j logs = Err e
  end ∧
  ∀ image label x y,
    batch !! "image" = Some image → image !! DATA = Some x →
    batch !! "label" = Some label → label !! DATA = Some y →
    prepare_batch batch = Ok (x, y).
Proof.
  unfold training_step, validation_step, infer_batch.
  split; [|split].
  - by destruct (prepare_batch batch) as [[x y]|].
  - by destruct (prepare_batch batch) as [[x y]|].
  - apply prepare_batch_Ok.
Qed.

(** ** One-hot encoding *)

Lemma max_label_spec start data :
  (start ≤ max_label start data)%Z ∧
  Forall (λ v, v ≤ max_label start data)%Z data ∧
  max_label start data ∈ start :: data.
Proof.
  unfold max_label. revert start.
  induction data as [|v data IH]; intros start; simpl.
  - split; [lia|]. split; [done|]. apply list_elem_of_here.
  - destruct (IH (Z.max start v)) as (Hle & Hall & Hin).
    split; [lia|]. split.
    + constructor; [lia|done].
    + apply elem_of_cons in Hin as [Heq|Hin].
      * rewrite Heq. destruct (Z.max_spec start v) as [[_ ->]|[_ ->]].
        -- apply list_elem_of_further, list_elem_of_here.
        -- apply list_elem_of_here.
      * by do 2 apply list_elem_of_further.
Qed.

Lemma sumZ_app l k : sumZ (l ++ k) = (sumZ l + sumZ k)%Z.
Proof. induction l as [|x l IH]; simpl; [done|]. rewrite IH. lia. Qed.

Lemma indicator_sum (C : nat) (v : Z) :
  sumZ ((λ c, if decide (v = Z.of_nat c) then 1 else 0)%Z <$> seq 0 C)
  = (if decide (0 ≤ v < Z.of_nat C)%Z then 1 else 0)%Z.
Proof.
  induction C as [|C IH].
  - simpl. by rewrite decide_False by lia.
  - rewrite seq_S, fmap_app, sumZ_app, IH. cbn [fmap list_fmap sumZ foldr Nat.add].
    repeat case_decide; lia.
Qed.

Lemma indicator_length C v : length (indicator C v) = C.
Proof. unfold indicator. by rewrite length_fmap, length_seq. Qed.

Lemma indicator_nth C v c :
  c < C →
  nth c (indicator C v) 0%Z = (if decide (v = Z.of_nat c) then 1 else 0)%Z.
Proof.
  intros Hc. unfold indicator. rewrite nth_lookup, list_lookup_fmap.
  by rewrite lookup_seq_lt.
Qed.

Lemma permute_indicator C data :
  permute_classes_first (C, indicator C <$> data) = class_masks C data.
Proof.
  unfold permute_classes_first, class_masks. cbn [fst snd].
  apply list_eq. intros c. rewrite !list_lookup_fmap.
  destruct (decide (c < C)) as [Hc|Hc].
  - rewrite lookup_seq_lt by done. cbn [fmap option_fmap option_map].
    f_equal. rewrite <-list_fmap_compose. apply list_fmap_ext.
    intros _ v _. cbn [compose]. by apply indicator_nth.
  - by rewrite lookup_seq_ge by lia.
Qed.

Lemma class_masks_voxel_sum C data i v :
  data !! i = Some v →
  voxel_sum (class_masks C data) i
  = (if decide (0 ≤ v < Z.of_nat C)%Z then 1 else 0)%Z.
Proof.
  intros Hv. unfold voxel_sum, class_masks. rewrite <-list_fmap_compose.
  rewrite <-indicator_sum. f_equal. apply list_fmap_ext. intros _ c _.
  cbn [compose]. by rewrite nth_lookup, list_lookup_fmap, Hv.
Qed.

Lemma class_masks_are_masks C data ch :
  ch ∈ class_masks C data → length ch = length data ∧ is_mask ch.
Proof.
  unfold class_masks. intros (c & -> & _)%list_elem_of_fmap.
  split; [by rewrite length_fmap|].
  apply Forall_fmap, Forall_true. intros v. cbn [compose]. case_decide; auto.
Qed.

(** With the class count left to be inferred, a label map without
    negative labels yields one channel per integer from 0 to its largest
    label. *)
Lemma OneHot_apply_inferred v data :
  Forall (λ v, 0 ≤ v)%Z (v :: data) →
  OneHot_apply (-1) (v :: data)
  = Ok (class_masks (Z.to_nat (max_label v data + 1)) (v :: data)).
Proof.
  intros Hpos. unfold OneHot_apply, one_hot.
  rewrite decide_False.
  - rewrite decide_True by done. cbn [mbind result_bind].
    by rewrite permute_indicator.
  - rewrite Exists_exists. intros (x & Hx & Hneg).
    rewrite Forall_forall in Hpos. specialize (Hpos x Hx). lia.
Qed.

Lemma distinct_labels_range data (M : Z) :
  Forall (λ v, 0 ≤ v ≤ M)%Z data →
  distinct_labels data ≤ Z.to_nat (M + 1) ∧
  (distinct_labels data = Z.to_nat (M + 1) ↔
   ∀ c, (0 ≤ c ≤ M)%Z → c ∈ data).
Proof.
  intros Hall. unfold distinct_labels.
  set (labels := list_to_set data : gset Z).
  set (range := list_to_set (seqZ 0 (M + 1)) : gset Z).
  assert (size range = Z.to_nat (M + 1)) as Hsize.
  { unfold range. rewrite size_list_to_set by apply NoDup_seqZ.
    by rewrite length_seqZ. }
  assert (labels ⊆ range) as Hsub.
  { intros v. unfold labels, range. rewrite !elem_of_list_to_set, elem_of_seqZ.
    intros Hv. rewrite Forall_forall in Hall. specialize (Hall v Hv). lia. }
  rewrite <-Hsize. split; [by apply subseteq_size|]. split.
  - intros Heq c Hc.
    assert (labels = range) as Hequiv.
    { apply set_subseteq_size_eq; [done|lia]. }
    apply (elem_of_list_to_set (C := gset Z)). fold labels. rewrite Hequiv.
    unfold range. rewrite elem_of_list_to_set, elem_of_seqZ. lia.
  - intros Hfull. f_equal. apply set_eq. intros c.
    split; [apply Hsub|].
    unfold labels, range. rewrite !elem_of_list_to_set, elem_of_seqZ.
    intros Hc. apply Hfull. lia.
Qed.

(** C8, as the code has it.  For every label map that is not empty and has
    no negative label, the one-hot step yields one channel per integer from
    0 to the largest label [M], that is [M + 1] channels; each channel is a
    mask over the voxels, and at every voxel the channels sum to 1.  The
    number of channels is at least the number [K] of distinct labels, and
    equals it exactly when every integer from 0 to [M] is a label of the
    map. *)
Theorem one_hot_channels_up_to_largest_label data :
  data ≠ [] →
  Forall (λ v, 0 ≤ v)%Z data →
  ∃ channels M,
    OneHot_apply (-1) data = Ok channels ∧
    M ∈ data ∧ Forall (λ v, v ≤ M)%Z data ∧
    Z.of_nat (length channels) = (M + 1)%Z ∧
    (∀ ch, ch ∈ channels → length ch = length data ∧ is_mask ch) ∧
    (∀ i, i < length data → voxel_sum channels i = 1%Z) ∧
    distinct_labels data ≤ length channels ∧
    (distinct_labels data = length channels ↔
     ∀ c, (0 ≤ c ≤ M)%Z → c ∈ data).
Proof.
  intros Hne Hpos. destruct data as [|v data]; [done|].
  destruct (max_label_spec v data) as (Hv & Hall & Hin).
  set (M := max_label v data) in *.
  assert (0 ≤ M)%Z as HM.
  { apply Forall_cons in Hpos as [? _]. lia. }
  assert (length (class_masks (Z.to_nat (M + 1)) (v :: data))
          = Z.to_nat (M + 1)) as Hlen.
  { unfold class_masks. by rewrite length_fmap, length_seq. }
  assert (Forall (λ x, 0 ≤ x ≤ M)%Z (v :: data)) as Hrange.
  { apply Forall_cons in Hpos as [? Hpos]. constructor; [lia|].
    rewrite Forall_forall in *. intros x Hx.
    specialize (Hpos x Hx). specialize (Hall x Hx). lia. }
  exists (class_masks (Z.to_nat (M + 1)) (v :: data)), M.
  split; [by apply OneHot_apply_inferred|].
  split; [done|]. split; [constructor; [lia|done]|].
  split; [lia|]. split; [apply class_masks_are_masks|].
  split.
  - intros i Hi. destruct (lookup_lt_is_Some_2 _ _ Hi) as [x Hx].
    rewrite (class_masks_voxel_sum _ _ _ x Hx).
    rewrite Forall_forall in Hrange.
    specialize (Hrange x (list_elem_of_lookup_2 _ _ _ Hx)).
    rewrite decide_True; [done|lia].
  - rewrite Hlen. by apply distinct_labels_range.
Qed.

(** C8, as the spec has it, fails on a label map whose labels leave a gap:
    the labels 0 and 2 are two distinct values, and yield three channels,
    the middle one empty. *)
Lemma one_hot_gap_makes_extra_channel :
  OneHot_apply (-1) [0; 2]%Z = Ok [[1; 0]; [0; 0]; [0; 1]]%Z ∧
  distinct_labels [0; 2]%Z = 2 ∧
  length [[1; 0]; [0; 0]; [0; 1]]%Z = 3.
Proof. by vm_compute. Qed.

(** ** The example *)

Example py_round_ties_to_even :
  py_round (5 # 2) = 2%Z ∧ py_round (7 # 2) = 4%Z ∧ py_round (24 # 10) = 2%Z ∧
  py_round (1 # 2) = 0%Z ∧ py_round (3 # 2) = 2%Z.
Proof. by vm_compute. Qed.

Example py_slice_clamps :
  py_slice [10; 11; 12; 13] 1 3 = [11; 12] ∧
  py_slice [10; 11; 12; 13] (-2) 9 = [12; 13] ∧
  py_slice [10; 11; 12; 13] 3 1 = [].
Proof. by vm_compute. Qed.

Example fnmatch_examples :
  fnmatch nii_pattern "hippocampus_001.nii.gz" = true ∧
  fnmatch nii_pattern "._hippocampus_001.nii.gz" = true ∧
  fnmatch nii_pattern "scan.nii" = true ∧
  fnmatch nii_pattern "notes.txt" = false ∧
  fnmatch nii_pattern "scan.ni" = false.
Proof. by vm_compute. Qed.

Example get_niis_example :
  name <$> get_niis "imagesTr" (imagesTr example_dir)
  = ["hippocampus_001.nii.gz"; "hippocampus_002.nii.gz";
     "hippocampus_003.nii.gz"] ∧
  name <$> get_niis "labelsTr" (labelsTr example_dir)
  = ["hippocampus_001.nii.gz"; "hippocampus_002.nii.gz";
     "hippocampus_003.nii.gz"] ∧
  name <$> get_niis "imagesTs" (imagesTs example_dir)
  = ["hippocampus_004.nii.gz"; "hippocampus_005.nii.gz"].
Proof. by vm_compute. Qed.

Example batch_sampler_example :
  batch_sampler 2 false [] [0; 1; 2; 3; 4] = [[0; 1]; [2; 3]; [4]] ∧
  batch_sampler 2 true [] [0; 1; 2; 3; 4] = [[0; 1]; [2; 3]].
Proof. by vm_compute. Qed.

(** A dataset of one subject: the lengths (1, 0) sum to 1 and go through
    the reading as fractions, which gives them back. *)
Example random_split_single_subject :
  ∀ s : Subject,
    random_split (H := rotating_generator) [s] (1, 0)%Z 5%Z
    = Ok (mkSubset [s] [0], mkSubset [s] [], 6%Z).
Proof. intros s. by vm_compute. Qed.

Example example_subjects_length : length example_subjects = 3.
Proof. reflexivity. Qed.

Example example_setup_Ok :
  setup (H := rotating_generator) example_module 1%Z = Ok example_setup.
Proof. by vm_compute. Qed.

(** ** Seeding *)

(** The call at line 51 installs [NP_MAX] whatever the generator held and
    whatever entropy the system offers. *)
Lemma set_determinism_default `{Generator} fresh :
  set_determinism default_seed fresh = manual_seed NP_MAX.
Proof. reflexivity. Qed.

Lemma run_script_seeded `{Generator} fresh g0 fs :
  run_script fresh g0 fs
  = setup (prepare_data fs
             (new_DataModule "Task04_Hippocampus"
                "1RzPB1_bqzQhlWvU-YGvZzhx2omcDh38C" 16
                (float_literal (8 # 10))))
          (manual_seed NP_MAX).
Proof. reflexivity. Qed.

Lemma unseeded_runs_differ :
  partition_of
    (run_script_with (H := rotating_generator) None 0%Z 0%Z example_dir)
  ≠ partition_of
      (run_script_with (H := rotating_generator) None 1%Z 0%Z example_dir).
Proof.
  intros Heq. apply (f_equal train_indices) in Heq.
  vm_compute in Heq. discriminate.
Qed.

(** C4, as the code has it.  The partition is drawn from the global
    generator of torch, and the script seeds that generator at import with
    the fixed default seed of [set_determinism]: two runs of the script
    over the same directory contents end with the same data module and the
    same partition, whatever state the generator starts in and whatever
    entropy the system offers.  The split itself takes no seed: were the
    generator left unseeded ([seed=None]), runs could differ. *)
Theorem seeded_script_repeats_its_partition `{Generator}
    (fresh1 fresh2 : Z) (g1 g2 : gen_state) (fs : DatasetDir) :
  run_script fresh1 g1 fs = run_script fresh2 g2 fs ∧
  partition_of (run_script fresh1 g1 fs)
  = partition_of (run_script fresh2 g2 fs) ∧
  ∃ (G : Generator) fresh1' fresh2' (g : @gen_state G) fs',
    partition_of (run_script_with None fresh1' g fs')
    ≠ partition_of (run_script_with None fresh2' g fs').
Proof.
  split; [by rewrite !run_script_seeded|].
  split; [by rewrite !run_script_seeded|].
  exists rotating_generator, 0%Z, 1%Z, 0%Z, example_dir.
  apply unseeded_runs_differ.
Qed.

(** C4, as the spec has it, fails: no generator, no pair of starting
    states, no entropy and no directory make two runs of the script end
    with different partitions. *)
Lemma seeded_runs_never_differ :
  ¬ ∃ (G : Generator) (fresh1 fresh2 : Z) (g1 g2 : @gen_state G)
      (fs : DatasetDir),
      partition_of (run_script fresh1 g1 fs)
      ≠ partition_of (run_script fresh2 g2 fs).
Proof.
  intros (G & fresh1 & fresh2 & g1 & g2 & fs & Hne).
  apply Hne. by rewrite !run_script_seeded.
Qed.

(** ** The theorems at work on the example *)

(** C1 on the three subjects of the example with the ratio 0.8: the float
    product is a little above 2.4, and two subjects go to training and one
    to validation. *)
Lemma split_allocator_example :
  let product := (5404319552844596 # 2251799813685248)%Q in
  nearest_binary64 (inject_Z 3 * train_val_ratio example_module) product ∧
  nearest_integer product 2 ∧
  ∃ train val g',
    split_subjects (H := rotating_generator) example_module 1%Z
    = Ok (train, val, g') ∧
    Z.of_nat (seq_len (SubsetSeq train)) = 2%Z ∧
    Z.of_nat (seq_len (SubsetSeq val)) = 1%Z ∧
    length (seq_items (SubsetSeq train)) = seq_len (SubsetSeq train) ∧
    length (seq_items (SubsetSeq val)) = seq_len (SubsetSeq val) ∧
    sub_dataset train = example_subjects ∧
    sub_dataset val = example_subjects ∧
    sub_indices train ++ sub_indices val ≡ₚ [0; 1; 2] ∧
    (∀ j, j ∈ sub_indices train → j ∉ sub_indices val) ∧
    seq_items (SubsetSeq train) ++ seq_items (SubsetSeq val)
    ≡ₚ example_subjects.
Proof.
  intros product.
  assert (Z.of_nat (length example_subjects) ≤ 2 ^ 53)%Z as H53
    by (vm_compute; discriminate).
  exact (split_allocator_partitions (H := rotating_generator)
           example_module example_subjects 1%Z eq_refl eq_refl eq_refl H53).
Defined.

(** C2 on the example with one label missing: three images, two labels,
    two subjects. *)
Lemma truncation_example :
  let images := get_niis "imagesTr" (imagesTr example_dir_missing_label) in
  let labels := get_niis "labelsTr" (labelsTr example_dir_missing_label) in
  length images = 3 ∧ length labels = 2 ∧
  ∃ subs,
    subjects (prepare_data example_dir_missing_label example_module)
    = Some subs ∧
    length subs = 2 ∧
    subs = pair_subject <$> zip (take 2 images) (take 2 labels).
Proof.
  intros images labels. split; [reflexivity|]. split; [reflexivity|].
  apply (prepare_data_truncates_to_shorter example_dir_missing_label
           example_module images labels
           (get_niis "imagesTs" (imagesTs example_dir_missing_label))).
  - reflexivity.
  - vm_compute. discriminate.
Defined.

(** C3 on the example: the target is the per-axis maximum over the three
    training and the two test subjects. *)
Lemma crop_target_example :
  ∃ shapes target,
    mapM spatial_shape (example_subjects ++ example_test_subjects)
    = Ok shapes ∧
    is_axis_max target shapes ∧
    preprocess example_setup.1 = Some (Compose (preprocessing_steps target)) ∧
    pads_or_crops_to example_setup.1 target ∧
    ∀ t sh,
      spatial_shape t = Ok sh →
      (∃ dm'', setup (H := rotating_generator)
                 (add_test_subject example_module t) 1%Z
               = Ok (dm'', example_setup.2) ∧
               pads_or_crops_to dm'' (axis_max target sh)) ∧
      (axis_max target sh = target ↔
       sh.1.1 ≤ target.1.1 ∧ sh.1.2 ≤ target.1.2 ∧ sh.2 ≤ target.2).
Proof.
  apply (crop_target_is_maximum_over_train_and_test
           (H := rotating_generator) example_module 1%Z
           example_setup.1 example_setup.2
           example_subjects example_test_subjects).
  - reflexivity.
  - reflexivity.
  - vm_compute. reflexivity.
Defined.

Example crop_target_example_value :
  preprocess example_setup.1
  = Some (Compose (preprocessing_steps (38, 52, 43))).
Proof. by vm_compute. Qed.

(** C5 on the example. *)
Lemma pipelines_example :
  ∃ target train val test,
    train_set example_setup.1 = Some train ∧
    val_set example_setup.1 = Some val ∧
    test_set example_setup.1 = Some test ∧
    dataset_steps train = preprocessing_steps target ++ augmentation_steps ∧
    dataset_steps val = preprocessing_steps target ∧
    dataset_steps test = preprocessing_steps target ∧
    ∀ X (run : Transform → X → X) (x : X),
      let preprocessed :=
        run (OneHot (-1))
          (run (EnsureShapeMultiple 8)
             (run (CropOrPad target) (run (RescaleIntensity (-1) 1) x))) in
      dataset_apply run val x = preprocessed ∧
      dataset_apply run test x = preprocessed ∧
      dataset_apply run train x
      = foldl (λ x s, run s x) preprocessed augmentation_steps.
Proof.
  apply (pipelines_run_preprocessing_then_augmentation
           (H := rotating_generator) example_module 1%Z
           example_setup.1 example_setup.2).
  vm_compute. reflexivity.
Defined.

(** C9 on the training loader of the example. *)
Lemma train_loader_example :
  ∃ dl ds,
    dataloader Train example_setup.1 = Ok dl ∧
    split_set Train example_setup.1 = Some ds ∧
    dl_dataset dl = Some ds ∧
    dl_shuffle dl = false ∧
    dl_batch_size dl = batch_size example_setup.1 ∧
    let n := seq_len (ds_subjects ds) in
    let bs := Z.to_nat (batch_size example_setup.1) in
    ∃ bl,
      (∀ g : @gen_state rotating_generator,
         ∃ g', batches (H := rotating_generator) dl g = Ok (bl, g')) ∧
      concat bl = seq 0 n ∧
      (∀ i b, bl !! i = Some b →
              b = take bs (drop (i * bs) (seq 0 n)) ∧ b ≠ [] ∧
              fetch dl b
              = Ok (take bs (drop (i * bs) (seq_items (ds_subjects ds))))).
Proof.
  apply (loaders_keep_split_order (H := rotating_generator)
           example_module 1%Z example_setup.1 example_setup.2 Train).
  - vm_compute. reflexivity.
  - reflexivity.
Defined.

(** C8 on a label map with the labels 0, 1 and 2: three channels. *)
Lemma one_hot_example :
  ∃ channels M,
    OneHot_apply (-1) [0; 1; 2; 1; 0]%Z = Ok channels ∧
    M ∈ [0; 1; 2; 1; 0]%Z ∧ Forall (λ v, v ≤ M)%Z [0; 1; 2; 1; 0]%Z ∧
    Z.of_nat (length channels) = (M + 1)%Z ∧
    (∀ ch, ch ∈ channels → length ch = 5 ∧ is_mask ch) ∧
    (∀ i, i < 5 → voxel_sum channels i = 1%Z) ∧
    distinct_labels [0; 1; 2; 1; 0]%Z ≤ length channels ∧
    (distinct_labels [0; 1; 2; 1; 0]%Z = length channels ↔
     ∀ c, (0 ≤ c ≤ M)%Z → c ∈ [0; 1; 2; 1; 0]%Z).
Proof.
  apply (one_hot_channels_up_to_largest_label [0; 1; 2; 1; 0]%Z).
  - discriminate.
  - repeat constructor; discriminate.
Defined.

Example one_hot_example_value :
  OneHot_apply (-1) [0; 1; 2; 1; 0]%Z
  = Ok [[1; 0; 0; 0; 1]; [0; 1; 0; 1; 0]; [0; 0; 1; 0; 0]]%Z.
Proof. by vm_compute. Qed.

(** * Further properties of the data module and of the script *)

(** ** The indexer and the order of directory entries *)

Lemma get_niis_names_Permutation d entries :
  name <$> get_niis d entries
  ≡ₚ ename <$> filter (λ e, kept (ename e) = true) entries.
Proof.
  by rewrite get_niis_Permutation, <-list_fmap_compose.
Qed.

Lemma get_niis_names_StronglySorted d entries :
  StronglySorted String.le (name <$> get_niis d entries).
Proof.
  apply (StronglySorted_fmap name path_le); [done|].
  apply get_niis_StronglySorted.
Qed.

(** Two listings with the same names, whatever the order and the
    directory, carry these names in the same order. *)
Lemma get_niis_names_unique d1 d2 entries1 entries2 :
  ename <$> filter (λ e, kept (ename e) = true) entries1
  ≡ₚ ename <$> filter (λ e, kept (ename e) = true) entries2 →
  name <$> get_niis d1 entries1 = name <$> get_niis d2 entries2.
Proof.
  intros Hperm.
  apply (StronglySorted_unique String.le);
    [apply get_niis_names_StronglySorted..|].
  by rewrite !get_niis_names_Permutation.
Qed.

Lemma get_niis_order_independent d entries entries' :
  entries ≡ₚ entries' →
  NoDup (ename <$> entries) →
  get_niis d entries = get_niis d entries'.
Proof.
  intros Hperm Hnodup.
  apply (StronglySorted_unique_strong path_le);
    [|apply get_niis_StronglySorted..|].
  - intros p1 p2 Hp1 Hp2 H12 H21.
    apply elem_of_get_niis in Hp1 as (e1 & He1 & -> & _).
    apply elem_of_get_niis in Hp2 as (e2 & He2 & -> & _).
    rewrite <-Hperm in He2. f_equal.
    assert (ename e1 = ename e2) as Hname.
    { by apply (anti_symm String.le). }
    apply list_elem_of_lookup in He1 as [i Hi].
    apply list_elem_of_lookup in He2 as [j Hj].
    assert (i = j) as ->.
    { apply (NoDup_lookup _ _ _ (ename e1) Hnodup);
        rewrite list_lookup_fmap; [by rewrite Hi|by rewrite Hj, Hname]. }
    congruence.
  - rewrite !get_niis_Permutation. by rewrite Hperm.
Qed.

(** X1.  What [prepare_data] stores does not depend on the order in which
    the operating system lists the three directories, as long as no
    directory holds a name twice. *)
Theorem prepare_data_ignores_listing_order fs fs' dm :
  imagesTr fs ≡ₚ imagesTr fs' →
  labelsTr fs ≡ₚ labelsTr fs' →
  imagesTs fs ≡ₚ imagesTs fs' →
  NoDup (ename <$> imagesTr fs) →
  NoDup (ename <$> labelsTr fs) →
  NoDup (ename <$> imagesTs fs) →
  download_data fs = download_data fs' ∧
  prepare_data fs dm = prepare_data fs' dm.
Proof.
  intros Hi Hl Ht Hni Hnl Hnt.
  assert (download_data fs = download_data fs') as Heq.
  { unfold download_data.
    by rewrite (get_niis_order_independent _ _ _ Hi Hni),
      (get_niis_order_independent _ _ _ Hl Hnl),
      (get_niis_order_independent _ _ _ Ht Hnt). }
  split; [done|]. unfold prepare_data. by rewrite Heq.
Qed.

(** X2.  When the image directory and the label directory hold the same
    names (among those the indexer keeps), no path is left out and every
    training subject pairs an image with the label of the same name. *)
Theorem matching_names_pair_up fs dm :
  ename <$> filter (λ e, kept (ename e) = true) (imagesTr fs)
  ≡ₚ ename <$> filter (λ e, kept (ename e) = true) (labelsTr fs) →
  ∃ subs,
    subjects (prepare_data fs dm) = Some subs ∧
    length subs = length (filter (λ e, kept (ename e) = true) (imagesTr fs)) ∧
    ∀ s, s ∈ subs →
         ∃ ip lp, s = labelled_subject ip lp ∧ name ip = name lp.
Proof.
  intros Hperm.
  pose proof (get_niis_names_unique "imagesTr" "labelsTr" _ _ Hperm) as Hnames.
  eexists. split; [apply prepare_data_subjects|]. split.
  - rewrite length_fmap, length_zip.
    rewrite <-(length_fmap name (get_niis "labelsTr" _)), <-Hnames.
    rewrite length_fmap, Nat.min_id.
    by rewrite get_niis_Permutation, length_fmap.
  - intros s ([ip lp] & -> & Hin)%list_elem_of_fmap.
    exists ip, lp. split; [done|].
    apply list_elem_of_lookup in Hin as [i Hi].
    apply zip_lookup in Hi as [Hip Hlp].
    apply (f_equal (λ l, l !! i)) in Hnames.
    rewrite !list_lookup_fmap, Hip, Hlp in Hnames. by injection Hnames.
Qed.

(** ** When [setup] succeeds and how it fails *)

Lemma spatial_shape_cases s :
  (∃ sh, spatial_shape s = Ok sh) ∨ spatial_shape s = Err RuntimeError.
Proof.
  unfold spatial_shape. destruct (image_shape <$> _) as [|sh rest]; [by right|].
  destruct (decide _); [left; eauto|by right].
Qed.

Lemma mapM_result_Ok_Forall {A B} (f : A → result B) l :
  (∃ ys, mapM f l = Ok ys) ↔ Forall (λ x, ∃ y, f x = Ok y) l.
Proof.
  induction l as [|x l IH]; simpl.
  - split; [constructor|]. intros _. by exists [].
  - rewrite Forall_cons, <-IH. destruct (f x) as [y|e]; simpl.
    + destruct (mapM f l) as [ys|e]; simpl.
      * split; [eauto|]. intros _. by eexists.
      * split; [by intros [? ?]|]. by intros [_ [? ?]].
    + split; [by intros [? ?]|]. by intros [[? ?] _].
Qed.

Lemma mapM_spatial_shape_cases l :
  (∃ shapes, mapM spatial_shape l = Ok shapes) ∨
  mapM spatial_shape l = Err RuntimeError.
Proof.
  induction l as [|s l IH]; simpl; [left; by exists []|].
  destruct (spatial_shape_cases s) as [[sh ->]| ->]; [|by right]. simpl.
  destruct IH as [[shapes ->]| ->]; [left; by eexists|by right].
Qed.

Lemma get_max_shape_inconsistent pool :
  Exists (λ s, spatial_shape s = Err RuntimeError) pool →
  get_max_shape pool = Err RuntimeError.
Proof.
  intros Hbad. unfold get_max_shape, new_SubjectsDataset. cbn [seq_len].
  destruct (decide (length pool = 0)) as [Hz|_].
  { destruct pool; [by apply Exists_nil in Hbad|done]. }
  cbn [mbind result_bind ds_subjects seq_items].
  destruct (mapM_spatial_shape_cases pool) as [Hok| ->]; [|done].
  apply mapM_result_Ok_Forall in Hok. rewrite Forall_forall in Hok.
  apply Exists_exists in Hbad as (s & Hs & Hbad).
  destruct (Hok s Hs) as [sh Hsh]. congruence.
Qed.

Lemma get_max_shape_consistent pool :
  pool ≠ [] →
  Forall (λ s, ∃ sh, spatial_shape s = Ok sh) pool →
  ∃ target, get_max_shape pool = Ok target.
Proof.
  intros Hne Hall. apply mapM_result_Ok_Forall in Hall as [shapes Hshapes].
  destruct shapes as [|sh rest].
  - apply mapM_result_length in Hshapes. by destruct pool.
  - eexists. by apply get_max_shape_intro.
Qed.

(** The split never raises, whatever the number of subjects: the
    training subset holds the first [n_train] positions of the permutation,
    all of them if there are fewer, and the validation subset the rest. *)
Lemma split_subjects_sizes `{Generator} dm subs g :
  subjects dm = Some subs →
  (0 < train_val_ratio dm)%Q → (train_val_ratio dm < 1)%Q →
  let n_train := num_train (Z.of_nat (length subs)) (train_val_ratio dm) in
  (0 ≤ n_train)%Z ∧
  ∃ train val g',
    split_subjects dm g = Ok (train, val, g') ∧
    seq_len (SubsetSeq train) = Z.to_nat n_train `min` length subs ∧
    seq_len (SubsetSeq val) = length subs - Z.to_nat n_train.
Proof.
  intros Hs H0 H1 n_train.
  assert (0 ≤ n_train)%Z as Hn by (apply num_train_nonneg; lra || lia).
  split; [done|].
  unfold split_subjects. rewrite Hs. cbn [expect mbind result_bind].
  fold n_train.
  rewrite random_split_valid; [|lia..|].
  - pose proof (randperm_length (length subs) g) as Hlen.
    eexists _, _, _. split; [reflexivity|].
    cbn [seq_len sub_indices]. rewrite length_take, length_drop, Hlen. lia.
  - intros Hone.
    assert (n_train ≤ Z.of_nat (length subs))%Z; [|lia].
    apply num_train_le; lra || lia.
Qed.

Lemma get_preprocessing_transform_eq dm subs tsubs :
  subjects dm = Some subs → test_subjects dm = Some tsubs →
  get_preprocessing_transform dm
  = (target ← get_max_shape (subs ++ tsubs);
     Ok (Compose (preprocessing_steps target))).
Proof.
  intros Hs Ht. unfold get_preprocessing_transform. by rewrite Hs, Ht.
Qed.

Lemma setup_inconsistent `{Generator} dm subs tsubs g :
  subjects dm = Some subs →
  test_subjects dm = Some tsubs →
  (0 < train_val_ratio dm)%Q → (train_val_ratio dm < 1)%Q →
  ¬ Forall (λ s, ∃ sh, spatial_shape s = Ok sh) (subs ++ tsubs) →
  setup dm g = Err RuntimeError.
Proof.
  intros Hs Ht H0 H1 Hbad.
  destruct (split_subjects_sizes dm subs g Hs H0 H1)
    as (_ & train & val & g' & Hsplit & _).
  unfold setup. rewrite Hsplit. cbn [mbind result_bind].
  rewrite (get_preprocessing_transform_eq dm subs tsubs Hs Ht).
  rewrite get_max_shape_inconsistent; [done|].
  apply not_Forall_Exists in Hbad; [|intros s; destruct (spatial_shape s);
    [left; eauto|right; by intros [? ?]]].
  apply Exists_exists in Hbad as (s & Hin & Hs').
  apply Exists_exists. exists s. split; [done|].
  destruct (spatial_shape_cases s) as [?|?]; done.
Qed.

Lemma setup_empty_split `{Generator} dm subs tsubs g :
  subjects dm = Some subs →
  test_subjects dm = Some tsubs →
  (0 < train_val_ratio dm)%Q → (train_val_ratio dm < 1)%Q →
  let n_train := num_train (Z.of_nat (length subs)) (train_val_ratio dm) in
  Forall (λ s, ∃ sh, spatial_shape s = Ok sh) (subs ++ tsubs) →
  tsubs = [] ∨ n_train = 0%Z ∨ (Z.of_nat (length subs) ≤ n_train)%Z →
  setup dm g = Err ValueError.
Proof.
  intros Hs Ht H0 H1 n_train Hgood Hempty.
  destruct (split_subjects_sizes dm subs g Hs H0 H1)
    as (Hn & train & val & g' & Hsplit & Htrain & Hval).
  fold n_train in Hn, Htrain, Hval.
  unfold setup. rewrite Hsplit. cbn [mbind result_bind].
  rewrite (get_preprocessing_transform_eq dm subs tsubs Hs Ht).
  destruct (decide (subs ++ tsubs = [])) as [Hnil|Hnil].
  { rewrite Hnil. done. }
  destruct (get_max_shape_consistent _ Hnil Hgood) as [target ->].
  cbn [mbind result_bind]. unfold new_SubjectsDataset.
  destruct (decide (seq_len (SubsetSeq train) = 0)); [done|].
  destruct (decide (seq_len (SubsetSeq val) = 0)); [done|].
  cbn [mbind result_bind]. rewrite Ht. cbn [expect mbind result_bind].
  destruct (decide (seq_len (ListSeq tsubs) = 0)); [done|].
  destruct Hempty as [->|[?|?]]; [done|lia..].
Qed.

Lemma setup_succeeds `{Generator} dm subs tsubs g :
  subjects dm = Some subs →
  test_subjects dm = Some tsubs →
  (0 < train_val_ratio dm)%Q → (train_val_ratio dm < 1)%Q →
  let n_train := num_train (Z.of_nat (length subs)) (train_val_ratio dm) in
  Forall (λ s, ∃ sh, spatial_shape s = Ok sh) (subs ++ tsubs) →
  tsubs ≠ [] → (0 < n_train < Z.of_nat (length subs))%Z →
  ∃ dm' g', setup dm g = Ok (dm', g').
Proof.
  intros Hs Ht H0 H1 n_train Hgood Hne Hmid.
  destruct (split_subjects_sizes dm subs g Hs H0 H1)
    as (Hn & train & val & g' & Hsplit & Htrain & Hval).
  fold n_train in Hn, Htrain, Hval.
  assert (subs ++ tsubs ≠ []) as Hnil.
  { intros [_ ?]%app_eq_nil. done. }
  destruct (get_max_shape_consistent _ Hnil Hgood) as [target Htarget].
  eexists _, _. apply setup_intro with (tsubs := tsubs); try done.
  - by rewrite (get_preprocessing_transform_eq dm subs tsubs Hs Ht), Htarget.
  - lia.
  - lia.
Qed.

(** X3.  With both subject lists in place and a ratio strictly between 0
    and 1, the outcome of [setup] is decided by three things.  It raises
    [RuntimeError] when some subject holds images of different spatial
    shapes; otherwise it raises [ValueError] when there is no test
    subject or when the rounded float product [n_train] of line 145
    leaves the training split empty (it is 0) or the validation split
    empty (it is the number of subjects, or more); otherwise it
    succeeds. *)
Theorem setup_outcome `{Generator} dm subs tsubs g :
  subjects dm = Some subs →
  test_subjects dm = Some tsubs →
  (0 < train_val_ratio dm)%Q → (train_val_ratio dm < 1)%Q →
  let n_train :=
    py_round (float_mul (float_of_int (Z.of_nat (length subs)))
                        (train_val_ratio dm)) in
  let consistent := Forall (λ s, ∃ sh, spatial_shape s = Ok sh) in
  (¬ consistent (subs ++ tsubs) → setup dm g = Err RuntimeError) ∧
  (consistent (subs ++ tsubs) →
   tsubs = [] ∨ n_train = 0%Z ∨ (Z.of_nat (length subs) ≤ n_train)%Z →
   setup dm g = Err ValueError) ∧
  (consistent (subs ++ tsubs) →
   tsubs ≠ [] → (0 < n_train < Z.of_nat (length subs))%Z →
   ∃ dm' g', setup dm g = Ok (dm', g')).
Proof.
  intros Hs Ht H0 H1 n_train consistent. split; [|split].
  - by apply setup_inconsistent.
  - by apply setup_empty_split.
  - by apply setup_succeeds.
Qed.

(** X4.  Before [prepare_data] has stored the subject lists, [setup]
    raises [TypeError]. *)
Theorem setup_needs_prepare_data `{Generator} dm g :
  (0 < train_val_ratio dm)%Q → (train_val_ratio dm < 1)%Q →
  subjects dm = None ∨ test_subjects dm = None →
  setup dm g = Err TypeError.
Proof.
  intros H0 H1 Hnone. unfold setup.
  destruct (subjects dm) as [subs|] eqn:Hs.
  - destruct Hnone as [?|Ht]; [done|].
    destruct (split_subjects_sizes dm subs g Hs H0 H1)
      as (_ & train & val & g' & -> & _).
    cbn [mbind result_bind]. unfold get_preprocessing_transform.
    by rewrite Hs, Ht.
  - unfold split_subjects. by rewrite Hs.
Qed.

(** ** The sizes of the two splits *)




(** ** Shapes of images and labels *)

Lemma labelled_subject_images ip lp :
  (map_to_list (labelled_subject ip lp)).*2 ≡ₚ [LabelMap lp; ScalarImage ip].
Proof.
  unfold labelled_subject.
  rewrite map_to_list_insert by done. by rewrite map_to_list_singleton.
Qed.

Lemma spatial_shape_labelled ip lp :
  spatial_shape (labelled_subject ip lp)
  = if decide (eshape (entry ip) = eshape (entry lp))
    then Ok (eshape (entry ip)) else Err RuntimeError.
Proof.
  unfold spatial_shape.
  pose proof (labelled_subject_images ip lp) as Hperm.
  apply (fmap_Permutation image_shape) in Hperm.
  cbn [fmap list_fmap] in Hperm. symmetry in Hperm.
  apply Permutation_length_2_inv in Hperm as [-> | ->];
    unfold image_shape, LabelMap, ScalarImage; cbn [ipath];
    destruct (decide (eshape (entry ip) = eshape (entry lp))) as [Heq|Hne].
  - rewrite decide_True; [by rewrite Heq|]. by repeat constructor.
  - rewrite decide_False; [done|]. intros [? _]%Forall_cons. done.
  - rewrite decide_True; [done|]. by repeat constructor.
  - rewrite decide_False; [done|]. intros [? _]%Forall_cons. done.
Qed.


(** X7.  The one check that catches a wrong pairing: when the image and
    the label paired at some position differ in spatial shape, [setup]
    raises [RuntimeError] while it computes the target shape. *)
Theorem mismatched_label_shape_raises `{Generator} fs dm0 g i ip lp :
  (0 < train_val_ratio dm0)%Q → (train_val_ratio dm0 < 1)%Q →
  get_niis "imagesTr" (imagesTr fs) !! i = Some ip →
  get_niis "labelsTr" (labelsTr fs) !! i = Some lp →
  eshape (entry ip) ≠ eshape (entry lp) →
  setup (prepare_data fs dm0) g = Err RuntimeError.
Proof.
  intros H0 H1 Hip Hlp Hne.
  pose proof (prepare_data_subjects fs dm0) as Hs.
  pose proof (prepare_data_test_subjects fs dm0) as Ht.
  apply (setup_inconsistent _ _ _ g Hs Ht); [done..|].
  intros Hall. rewrite Forall_forall in Hall.
  destruct (Hall (labelled_subject ip lp)) as [sh Hsh].
  - apply elem_of_app. left. apply list_elem_of_fmap.
    exists (ip, lp). split; [done|].
    apply list_elem_of_lookup. exists i. by apply zip_lookup.
  - rewrite spatial_shape_labelled, decide_False in Hsh by done. done.
Qed.

(** ** Shapes after preprocessing *)


(** An axis of [2^16] voxels is taken for an axis of none, and comes out
    of the padding step with a single voxel. *)
Example ensure_multiple_wraps :
  ensure_multiple 8 (2 ^ 16) = 1 ∧ ensure_multiple 8 1 = 8 ∧
  ensure_multiple 8 38 = 40.
Proof.
  split; [|split; reflexivity].
  unfold ensure_multiple. cbv zeta. by rewrite Nat.Div0.mod_same.
Qed.


(** ** How many batches, and loaders that come too early *)

Lemma div_up_small n bs : 0 < n → n < bs → (n + bs - 1) / bs = 1.
Proof.
  intros H0 Hlt. replace (n + bs - 1) with (n - 1 + 1 * bs) by lia.
  rewrite Nat.div_add by lia. rewrite Nat.div_small; lia.
Qed.

Lemma div_up_step n bs : 0 < bs → bs ≤ n → (n + bs - 1) / bs = S ((n - bs + bs - 1) / bs).
Proof.
  intros H0 Hle. replace (n + bs - 1) with (n - bs + bs - 1 + 1 * bs) by lia.
  rewrite Nat.div_add by lia. lia.
Qed.

Lemma batch_sampler_length bs indices :
  0 < bs →
  length (batch_sampler bs false [] indices) = (length indices + bs - 1) / bs.
Proof.
  intros Hbs. remember (length indices) as n eqn:Hn.
  revert indices Hn. induction (lt_wf n) as [n _ IH]. intros indices ->.
  destruct (decide (length indices < bs)) as [Hshort|Hfull].
  - rewrite batch_sampler_short by (simpl; lia). cbn [app].
    destruct indices as [|idx indices].
    + simpl. symmetry. apply Nat.div_small. lia.
    + rewrite bool_decide_true by (simpl; lia). cbn [length] in *.
      rewrite div_up_small; [done|lia..].
  - rewrite batch_sampler_full by (simpl; lia). cbn [app length].
    rewrite (IH (length (drop bs indices)) ltac:(rewrite length_drop; lia)
               (drop bs indices) eq_refl).
    rewrite length_drop. symmetry. apply div_up_step; lia.
Qed.

Lemma dataloader_inv which dm dl :
  dataloader which dm = Ok dl →
  (0 < batch_size dm)%Z ∧
  dl = mkDataLoader (split_set which dm) (batch_size dm) false false.
Proof.
  destruct which; cbn [dataloader split_set];
    unfold train_dataloader, val_dataloader, test_dataloader, new_DataLoader;
    (destruct (decide (batch_size dm ≤ 0)%Z); [done|]);
    intros [= <-]; (split; [lia|done]).
Qed.

(** X9.  A loader over a split of [n] subjects yields [n / batch_size]
    batches, rounded up; batch [i] holds [batch_size] positions, except
    the last one, which holds what is left.  Nothing is dropped, and the
    batches do not depend on the state of the generator. *)
Theorem loader_batch_count `{Generator} dm which dl ds :
  dataloader which dm = Ok dl →
  split_set which dm = Some ds →
  let n := seq_len (ds_subjects ds) in
  let bs := Z.to_nat (batch_size dm) in
  ∃ bl,
    (∀ g, ∃ g', batches dl g = Ok (bl, g')) ∧
    length bl = (n + bs - 1) / bs ∧
    length (concat bl) = n ∧
    ∀ i b, bl !! i = Some b → length b = bs `min` (n - i * bs).
Proof.
  intros [Hbs ->]%dataloader_inv Hds n bs. rewrite Hds.
  eexists. split.
  { intros g. eexists. apply batches_sequential. }
  fold n bs. split; [|split].
  - rewrite batch_sampler_length by lia. by rewrite length_seq.
  - by rewrite batch_sampler_concat, app_nil_l, length_seq.
  - intros i b Hb. apply batch_sampler_lookup in Hb as [-> _]; [|lia].
    by rewrite take_drop_seq, length_seq.
Qed.

(** X10.  A loader asked for before [setup] is built without complaint,
    since the dataset is not looked at; it is the first pass over it, and
    every fetch from it, that raises [TypeError]. *)
Theorem loader_before_setup_raises `{Generator} dm which :
  split_set which dm = None →
  (0 < batch_size dm)%Z →
  ∃ dl,
    dataloader which dm = Ok dl ∧
    (∀ g, batches dl g = Err TypeError) ∧
    (∀ batch, fetch dl batch = Err TypeError).
Proof.
  intros Hnone Hbs.
  exists (mkDataLoader None (batch_size dm) false false). split.
  - destruct which; cbn [dataloader split_set] in *;
      unfold train_dataloader, val_dataloader, test_dataloader, new_DataLoader;
      rewrite Hnone; by rewrite decide_False by lia.
  - split; [|done]. intros g. unfold batches. by destruct (random_ g).
Qed.

(** ** Batches the model cannot use *)

Lemma prepare_batch_cases {Tensor} (batch : @Batch Tensor) :
  (has_image_and_label batch ∧ ∃ xy, prepare_batch batch = Ok xy) ∨
  (¬ has_image_and_label batch ∧ prepare_batch batch = Err KeyError).
Proof.
  unfold prepare_batch, has_image_and_label.
  destruct (batch !! "image") as [image|] eqn:Hi;
    [|right; split; [by intros (? & ? & ? & ? & ? & _)|done]].
  cbn [expect mbind result_bind].
  destruct (image !! DATA) as [x|] eqn:Hx;
    [|right; split; [|done]; intros (? & ? & ? & ? & [= <-] & ? & _);
      congruence].
  cbn [expect mbind result_bind].
  destruct (batch !! "label") as [label|] eqn:Hl;
    [|right; split; [by intros (? & ? & ? & ? & _ & _ & ? & _)|done]].
  cbn [expect mbind result_bind].
  destruct (label !! DATA) as [y|] eqn:Hy;
    [|right; split; [|done]; intros (? & ? & ? & ? & _ & _ & [= <-] & ?);
      congruence].
  left. split; [by exists image, label, x, y|by eexists].
Qed.

(** X11.  A step succeeds exactly on batches that hold a tensor under
    both [image] and [label]; on any other batch, such as one collated
    from test subjects, both steps raise [KeyError] and log nothing. *)
Theorem steps_need_image_and_label {Tensor} (tensor_len : Tensor → nat)
    (m : Model) (batch : Batch) (i : nat) (logs : list LogEntry) :
  ((∃ res, training_step tensor_len m batch i logs = Ok res) ↔
   has_image_and_label batch) ∧
  ((∃ res, validation_step tensor_len m batch i logs = Ok res) ↔
   has_image_and_label batch) ∧
  (¬ has_image_and_label batch →
   training_step tensor_len m batch i logs = Err KeyError ∧
   validation_step tensor_len m batch i logs = Err KeyError).
Proof.
  unfold training_step, validation_step, infer_batch.
  destruct (prepare_batch_cases batch) as [[Hhas [[x y] ->]]|[Hnot ->]];
    cbn [mbind result_bind].
  - split; [|split]; [split; [done|by eexists]..|done].
  - split; [|split];
      [split; [by intros [? ?]|done]..|done].
Qed.

(** ** The evaluation loop *)

Lemma argmax_from_bound best_i best i row :
  best_i < i → argmax_from best_i best i row < i + length row.
Proof.
  revert best_i best i. induction row as [|v row IH]; intros best_i best i Hlt.
  - simpl. lia.
  - simpl. destruct (Qlt_le_dec best v).
    + specialize (IH i v (S i)). lia.
    + specialize (IH best_i best (S i)). lia.
Qed.

Lemma argmax_bound row : row ≠ [] → argmax row < length row.
Proof.
  destruct row as [|v row]; [done|]. intros _. simpl.
  pose proof (argmax_from_bound 0 v 1 row). lia.
Qed.

(** X12.  In the evaluation loop the one-hot encoding of the predicted
    labels has one channel per class up to the largest class predicted
    somewhere in the batch, not one per output of the network: it has as
    many channels as the network has classes exactly when the last class
    is predicted at some voxel of the batch, and fewer otherwise. *)
Theorem predicted_channels_stop_at_largest_class logits (C : nat) :
  logits ≠ [] →
  0 < C →
  Forall (λ row, length row = C) logits →
  ∃ channels M,
    labels_one_hot logits = Ok channels ∧
    length channels = S M ∧
    M < C ∧
    (∃ row, row ∈ logits ∧ argmax row = M) ∧
    (∀ row, row ∈ logits → argmax row ≤ M) ∧
    (length channels = C ↔ ∃ row, row ∈ logits ∧ argmax row = C - 1).
Proof.
  intros Hne HC Hlen. rewrite Forall_forall in Hlen.
  assert (∀ row, row ∈ logits → argmax row < C) as Hbound.
  { intros row Hrow. rewrite <-(Hlen row Hrow). apply argmax_bound.
    intros ->. specialize (Hlen [] Hrow). simpl in Hlen. lia. }
  destruct logits as [|row0 logits]; [done|].
  set (labels := (λ row, Z.of_nat (argmax row)) <$> row0 :: logits).
  assert (Forall (λ v, 0 ≤ v)%Z labels) as Hpos.
  { apply Forall_fmap, Forall_true. intros row. cbn [compose]. lia. }
  pose proof (OneHot_apply_inferred _ _ Hpos) as Happly.
  destruct (max_label_spec (Z.of_nat (argmax row0))
              ((λ row, Z.of_nat (argmax row)) <$> logits))
    as (Hfirst & Hall & Hin).
  set (Mz := max_label _ _) in *.
  change (Z.of_nat (argmax row0) :: _) with labels in Hin.
  apply list_elem_of_fmap in Hin as (rowM & HMz & HrowM).
  exists (class_masks (Z.to_nat (Mz + 1)) labels), (argmax rowM).
  split; [exact Happly|].
  split; [unfold class_masks; rewrite length_fmap, length_seq; lia|].
  split; [by apply Hbound|]. split; [by exists rowM|].
  assert (∀ row, row ∈ row0 :: logits → argmax row ≤ argmax rowM) as Hmax.
  { intros row [->|Hrow]%elem_of_cons.
    - lia.
    - rewrite Forall_forall in Hall.
      specialize (Hall (Z.of_nat (argmax row))).
      assert (Z.of_nat (argmax row) ≤ Mz)%Z; [|lia].
      apply Hall, list_elem_of_fmap. by exists row. }
  split; [done|].
  unfold class_masks. rewrite length_fmap, length_seq. split.
  - intros Heq. exists rowM. split; [done|lia].
  - intros (row & Hrow & Hlast).
    specialize (Hmax row Hrow). specialize (Hbound rowM HrowM). lia.
Qed.

(** ** The target shape and the order of the pool *)

Lemma is_axis_max_unique target target' shapes shapes' :
  (∀ sh, sh ∈ shapes ↔ sh ∈ shapes') →
  is_axis_max target shapes → is_axis_max target' shapes' →
  target = target'.
Proof.
  intros Hiff (Hle & (x & Hx & Ex) & (y & Hy & Ey) & (z & Hz & Ez))
    (Hle' & (x' & Hx' & Ex') & (y' & Hy' & Ey') & (z' & Hz' & Ez')).
  destruct (Hle' x (proj1 (Hiff x) Hx)) as (? & _ & _).
  destruct (Hle' y (proj1 (Hiff y) Hy)) as (_ & ? & _).
  destruct (Hle' z (proj1 (Hiff z) Hz)) as (_ & _ & ?).
  destruct (Hle x' (proj2 (Hiff x') Hx')) as (? & _ & _).
  destruct (Hle y' (proj2 (Hiff y') Hy')) as (_ & ? & _).
  destruct (Hle z' (proj2 (Hiff z') Hz')) as (_ & _ & ?).
  destruct target as [[a b] c], target' as [[a' b'] c']. cbn [fst snd] in *.
  f_equal; [f_equal|]; lia.
Qed.

(** X13.  [get_max_shape] does not depend on the order of the subjects it
    is given: the target shape, or the exception raised, is the same for
    any rearrangement of the pool, and so does not tell training subjects
    from test subjects. *)
Theorem get_max_shape_ignores_order pool pool' :
  pool ≡ₚ pool' → get_max_shape pool = get_max_shape pool'.
Proof.
  intros Hperm.
  destruct (mapM_spatial_shape_cases pool) as [Hgood|Hbad].
  - apply mapM_result_Ok_Forall in Hgood.
    destruct pool as [|s pool].
    { apply Permutation_nil_l in Hperm. by subst. }
    assert (pool' ≠ []) as Hne'.
    { intros ->. by apply Permutation_nil_r in Hperm. }
    pose proof Hgood as Hgood'. rewrite Hperm in Hgood'.
    destruct (get_max_shape_consistent (s :: pool) ltac:(done) Hgood)
      as [t Ht].
    destruct (get_max_shape_consistent pool' Hne' Hgood') as [t' Ht'].
    rewrite Ht, Ht'. f_equal.
    apply get_max_shape_inv in Ht as (sh0 & rest & Hm & ->).
    apply get_max_shape_inv in Ht' as (sh0' & rest' & Hm' & ->).
    apply (is_axis_max_unique _ _ (sh0 :: rest) (sh0' :: rest'));
      [|apply foldl_axis_max_is_axis_max..].
    intros sh. rewrite (mapM_result_elem_of _ _ _ sh Hm),
      (mapM_result_elem_of _ _ _ sh Hm').
    by setoid_rewrite Hperm.
  - assert (¬ Forall (λ s, ∃ sh, spatial_shape s = Ok sh) pool) as Hnot.
    { intros [shapes Hok]%mapM_result_Ok_Forall. congruence. }
    clear Hbad. rename Hnot into Hbad.
    assert (Exists (λ s, spatial_shape s = Err RuntimeError) pool) as Hex.
    { apply not_Forall_Exists in Hbad; [|intros s; destruct (spatial_shape s);
        [left; eauto|right; by intros [? ?]]].
      apply Exists_exists in Hbad as (s & Hin & Hs).
      apply Exists_exists. exists s. split; [done|].
      destruct (spatial_shape_cases s) as [?|?]; done. }
    rewrite !get_max_shape_inconsistent; [done|by rewrite <-Hperm|done].
Qed.

(** ** What the script needs of the dataset directory *)



(** ** The further properties at work on the example *)

(** X1 on the example directory and its reordering. *)
Lemma listing_order_example :
  download_data example_dir = download_data example_dir_reordered ∧
  prepare_data example_dir example_module
  = prepare_data example_dir_reordered example_module.
Proof.
  apply prepare_data_ignores_listing_order.
  - apply perm_swap.
  - reflexivity.
  - reflexivity.
  - apply (bool_decide_unpack _). by vm_compute.
  - apply (bool_decide_unpack _). by vm_compute.
  - apply (bool_decide_unpack _). by vm_compute.
Defined.

(** X2 on the example directory: three subjects, each with the label of
    its image. *)
Lemma matching_names_example :
  ∃ subs,
    subjects (prepare_data example_dir example_module) = Some subs ∧
    length subs
    = length (filter (λ e, kept (ename e) = true) (imagesTr example_dir)) ∧
    ∀ s, s ∈ subs →
         ∃ ip lp, s = labelled_subject ip lp ∧ name ip = name lp.
Proof.
  apply matching_names_pair_up.
  change (["hippocampus_003.nii.gz"; "hippocampus_001.nii.gz";
           "hippocampus_002.nii.gz"]
          ≡ₚ ["hippocampus_002.nii.gz"; "hippocampus_001.nii.gz";
              "hippocampus_003.nii.gz"]).
  etrans; [apply perm_swap|]. etrans; [apply perm_skip, perm_swap|].
  apply perm_swap.
Defined.

(** X3 on the example: every subject is consistent, there are test
    subjects, and two of the three subjects go to training. *)
Lemma setup_outcome_example :
  let consistent := Forall (λ s, ∃ sh, spatial_shape s = Ok sh) in
  (¬ consistent (example_subjects ++ example_test_subjects) →
   setup (H := rotating_generator) example_module 1%Z = Err RuntimeError) ∧
  (consistent (example_subjects ++ example_test_subjects) →
   example_test_subjects = [] ∨ 2%Z = 0%Z ∨ (3 ≤ 2)%Z →
   setup (H := rotating_generator) example_module 1%Z = Err ValueError) ∧
  (consistent (example_subjects ++ example_test_subjects) →
   example_test_subjects ≠ [] → (0 < 2 < 3)%Z →
   ∃ dm' g', setup (H := rotating_generator) example_module 1%Z
             = Ok (dm', g')).
Proof.
  exact (setup_outcome (H := rotating_generator) example_module
           example_subjects example_test_subjects 1%Z
           eq_refl eq_refl eq_refl eq_refl).
Defined.

(** X4 on the data module of the script before [prepare_data]. *)
Lemma setup_needs_prepare_data_example :
  setup (H := rotating_generator)
    (new_DataModule "Task04_Hippocampus" "1RzPB1_bqzQhlWvU-YGvZzhx2omcDh38C"
                    16 (float_literal (8 # 10))) 1%Z
  = Err TypeError.
Proof.
  apply (setup_needs_prepare_data (H := rotating_generator)).
  - reflexivity.
  - reflexivity.
  - by left.
Defined.


(** X7 on the example with a label of another shape. *)
Lemma mismatched_label_shape_example :
  setup (H := rotating_generator)
    (prepare_data example_dir_wrong_shape example_module) 1%Z
  = Err RuntimeError.
Proof.
  apply (mismatched_label_shape_raises (H := rotating_generator)
           example_dir_wrong_shape example_module 1%Z 1
           (mkPath "imagesTr" (mkEntry "hippocampus_002.nii.gz" (34, 52, 40)))
           (mkPath "labelsTr" (mkEntry "hippocampus_002.nii.gz" (34, 52, 41)))).
  - reflexivity.
  - reflexivity.
  - vm_compute. reflexivity.
  - vm_compute. reflexivity.
  - discriminate.
Defined.


Example preprocessed_shapes_example_value :
  ∀ sh, (λ ds, dataset_apply shape_step ds sh) <$> val_set example_setup.1
        = Some (40, 56, 48).
Proof. intros sh. by vm_compute. Qed.

(** X9 on the training loader of the example: two subjects, batches of
    16, one batch. *)
Lemma loader_batch_count_example :
  ∃ ds dl bl,
    split_set Train example_setup.1 = Some ds ∧
    dataloader Train example_setup.1 = Ok dl ∧
    (∀ g, ∃ g', batches (H := rotating_generator) dl g = Ok (bl, g')) ∧
    length bl = (seq_len (ds_subjects ds) + 16 - 1) / 16 ∧
    length (concat bl) = seq_len (ds_subjects ds) ∧
    ∀ i b, bl !! i = Some b →
           length b = 16 `min` (seq_len (ds_subjects ds) - i * 16).
Proof.
  eexists _, _.
  assert (split_set Train example_setup.1 = Some _) as Hds
    by (vm_compute; reflexivity).
  assert (dataloader Train example_setup.1 = Ok _) as Hdl
    by (vm_compute; reflexivity).
  destruct (loader_batch_count (H := rotating_generator) example_setup.1
              Train _ _ Hdl Hds) as (bl & Hb & Hrest).
  exists bl. split; [exact Hds|]. split; [exact Hdl|]. split; [exact Hb|].
  exact Hrest.
Defined.

(** X10 on the example before [setup]. *)
Lemma loader_before_setup_example :
  ∃ dl,
    dataloader Train example_module = Ok dl ∧
    (∀ g, batches (H := rotating_generator) dl g = Err TypeError) ∧
    (∀ batch, fetch dl batch = Err TypeError).
Proof.
  apply (loader_before_setup_raises (H := rotating_generator)).
  - reflexivity.
  - reflexivity.
Defined.

(** X12 on two voxels and three classes: class 1 wins at the first voxel
    and class 0 at the second, so the encoding has two channels. *)
Lemma predicted_channels_example :
  ∃ channels M,
    labels_one_hot [[1; 3; 2]; [5; 0; 0]]%Q = Ok channels ∧
    length channels = S M ∧
    M < 3 ∧
    (∃ row, row ∈ [[1; 3; 2]; [5; 0; 0]]%Q ∧ argmax row = M) ∧
    (∀ row, row ∈ [[1; 3; 2]; [5; 0; 0]]%Q → argmax row ≤ M) ∧
    (length channels = 3 ↔
     ∃ row, row ∈ [[1; 3; 2]; [5; 0; 0]]%Q ∧ argmax row = 3 - 1).
Proof.
  apply (predicted_channels_stop_at_largest_class
           [[1; 3; 2]; [5; 0; 0]]%Q 3).
  - discriminate.
  - lia.
  - by repeat constructor.
Defined.

Example predicted_channels_example_value :
  labels_one_hot [[1; 3; 2]; [5; 0; 0]]%Q = Ok [[0; 1]; [1; 0]]%Z.
Proof. by vm_compute. Qed.

(** X13 on the example: test subjects first or training subjects first,
    the target is the same. *)
Lemma get_max_shape_order_example :
  get_max_shape (example_subjects ++ example_test_subjects)
  = get_max_shape (example_test_subjects ++ example_subjects).
Proof.
  apply get_max_shape_ignores_order. apply Permutation_app_comm.
Defined.
